(** * Lezioni-da-YouTube: the URL extractor, the transcript retrieval and the
    lesson card templater of [app.py], embedded in Rocq.

    Python strings are sequences of Unicode code points: a character is a
    code point in [N] and a string a list of them, so that [len], slicing,
    [str.replace], [str.split], [str.join] and the regular expressions of
    [re] act on the same units as in the program. *)

From Stdlib Require Import Ascii String Decimal.
From Stdlib Require Import List NArith Arith Bool Lia.
Import ListNotations.

(** ** Strings *)

Definition char := N.
Definition str := list char.

(** An ASCII literal of the source as a Python string. *)
Definition u (s : string) : str := map N_of_ascii (list_ascii_of_string s).

Definition newline : char := 10%N.
Definition backslash : char := 92%N.
Definition nl : str := [newline].

Fixpoint str_eqb (a b : str) : bool :=
  match a, b with
  | [], [] => true
  | x :: a', y :: b' => N.eqb x y && str_eqb a' b'
  | _, _ => false
  end.

(** [s.startswith(p)]. *)
Fixpoint starts_with (p s : str) : bool :=
  match p, s with
  | [], _ => true
  | x :: p', y :: s' => N.eqb x y && starts_with p' s'
  | _ :: _, [] => false
  end.

(** [needle in hay] on strings. *)
Fixpoint contains (needle hay : str) : bool :=
  starts_with needle hay ||
  match hay with
  | [] => false
  | _ :: hay' => contains needle hay'
  end.

(** [str(n)] and the [{n}] of an f-string, for a non-negative integer. *)
Fixpoint digits (d : Decimal.uint) : str :=
  match d with
  | Nil => []
  | D0 d' => 48%N :: digits d'
  | D1 d' => 49%N :: digits d'
  | D2 d' => 50%N :: digits d'
  | D3 d' => 51%N :: digits d'
  | D4 d' => 52%N :: digits d'
  | D5 d' => 53%N :: digits d'
  | D6 d' => 54%N :: digits d'
  | D7 d' => 55%N :: digits d'
  | D8 d' => 56%N :: digits d'
  | D9 d' => 57%N :: digits d'
  end.

Definition str_of_nat (n : nat) : str := digits (Nat.to_uint n).

(** [sep.join(items)]. *)
Fixpoint join (sep : str) (items : list str) : str :=
  match items with
  | [] => []
  | x :: rest =>
      match rest with
      | [] => x
      | _ :: _ => x ++ sep ++ join sep rest
      end
  end.

(** [text.replace(old, new)]: the occurrences of [old] are replaced from left
    to right and do not overlap; [skip] counts the characters of a replaced
    occurrence that are still to be passed over.  With an empty [old] Python
    puts [new] before every character and at the end. *)
Fixpoint replace_from (old new : str) (skip : nat) (text : str) : str :=
  match text with
  | [] => match old with [] => new | _ :: _ => [] end
  | c :: rest =>
      match skip with
      | S k => replace_from old new k rest
      | O =>
          if starts_with old text then
            match old with
            | [] => new ++ c :: replace_from old new 0 rest
            | _ :: _ => new ++ replace_from old new (length old - 1) rest
            end
          else c :: replace_from old new 0 rest
      end
  end.

Definition replace (text old new : str) : str := replace_from old new 0 text.

(** [str.isspace] on one code point: the characters [str.split()] splits at. *)
Definition is_space (c : char) : bool :=
  ((9 <=? c) && (c <=? 13) || (28 <=? c) && (c <=? 32) ||
   (c =? 0x85) || (c =? 0xA0) || (c =? 0x1680) ||
   (0x2000 <=? c) && (c <=? 0x200A) ||
   (c =? 0x2028) || (c =? 0x2029) || (c =? 0x202F) || (c =? 0x205F) ||
   (c =? 0x3000))%N.

(** [text.split()]: the maximal runs of non-space characters, in order; [cur]
    is the run being read, last character first. *)
Fixpoint split_from (cur : str) (text : str) : list str :=
  match text with
  | [] => match cur with [] => [] | _ :: _ => [rev cur] end
  | c :: rest =>
      if is_space c then
        match cur with
        | [] => split_from [] rest
        | _ :: _ => rev cur :: split_from [] rest
        end
      else split_from (c :: cur) rest
  end.

Definition split (text : str) : list str := split_from [] text.

(** ** Regular expressions: the fragment of [re] the patterns are written in

    A backtracking matcher in the style of [re]: for a pattern, the state of
    group 1 and the text at the current position, [matches] lists every way
    the pattern matches there, in the order in which backtracking tries them
    (greedy operators first take as much as they can).  The head of the list
    is the match [re] reports. *)

Inductive regex : Type :=
| Lit (l : str)                (* literal text, escaped characters included *)
| Dot                           (* [.]: any character but a newline *)
| Cls (p : char -> bool)        (* a character set [[...]] *)
| Cat (r1 r2 : regex)           (* r1 r2 *)
| Opt (r : regex)               (* r? *)
| Star (r : regex)              (* r* *)
| Rep (n : nat) (r : regex)     (* r{n} *)
| Grp (r : regex).              (* (r), the capturing group 1 *)

(** A match in progress: what group 1 holds and the text still ahead. *)
Definition mstate : Type := option str * str.

Fixpoint strip_prefix (l s : str) : option str :=
  match l, s with
  | [], _ => Some s
  | x :: l', y :: s' => if N.eqb x y then strip_prefix l' s' else None
  | _ :: _, [] => None
  end.

Fixpoint star_loop (step : option str -> str -> list mstate) (fuel : nat)
    (g : option str) (s : str) : list mstate :=
  match fuel with
  | O => [(g, s)]
  | S fuel' =>
      flat_map (fun m : mstate =>
                  if length (snd m) <? length s
                  then star_loop step fuel' (fst m) (snd m) else [])
               (step g s)
      ++ [(g, s)]
  end.

Fixpoint rep_loop (step : option str -> str -> list mstate) (n : nat)
    (g : option str) (s : str) : list mstate :=
  match n with
  | O => [(g, s)]
  | S n' => flat_map (fun m : mstate => rep_loop step n' (fst m) (snd m)) (step g s)
  end.

Fixpoint matches (r : regex) (g : option str) (s : str) : list mstate :=
  match r with
  | Lit l => match strip_prefix l s with Some s' => [(g, s')] | None => [] end
  | Dot => match s with
           | x :: s' => if N.eqb x newline then [] else [(g, s')]
           | [] => []
           end
  | Cls p => match s with
             | x :: s' => if p x then [(g, s')] else []
             | [] => []
             end
  | Cat r1 r2 => flat_map (fun m : mstate => matches r2 (fst m) (snd m)) (matches r1 g s)
  | Opt r1 => matches r1 g s ++ [(g, s)]
  | Star r1 => star_loop (matches r1) (length s) g s
  | Rep n r1 => rep_loop (matches r1) n g s
  | Grp r1 => map (fun m : mstate => (Some (firstn (length s - length (snd m)) s), snd m))
                  (matches r1 g s)
  end.

(** [re.search(pattern, s)]: the first match at the leftmost position that has
    one, or [None]. *)
Fixpoint search (r : regex) (s : str) : option mstate :=
  match matches r None s with
  | m :: _ => Some m
  | [] => match s with
          | [] => None
          | _ :: s' => search r s'
          end
  end.

(** [match.group(1)]. *)
Definition group1 (m : mstate) : option str := fst m.

(** ** [extract_video_id] *)

(** [[a-zA-Z0-9_-]] *)
Definition is_id_char (c : char) : bool :=
  ((97 <=? c) && (c <=? 122) || (65 <=? c) && (c <=? 90) ||
   (48 <=? c) && (c <=? 57) || (c =? 95) || (c =? 45))%N.

(** [(?:https?:\/\/)?] *)
Definition scheme : regex :=
  Opt (Cat (Lit (u "http")) (Cat (Opt (Lit (u "s"))) (Lit (u "://")))).

(** [(?:www\.)?] *)
Definition www : regex := Opt (Lit (u "www.")).

(** [([a-zA-Z0-9_-]{11})] *)
Definition id_group : regex := Grp (Rep 11 (Cls is_id_char)).

(** [youtube\.com\/watch\?(?:.*&)?v=([a-zA-Z0-9_-]{11})] *)
Definition watch_core : regex :=
  Cat (Lit (u "youtube.com/watch?"))
      (Cat (Opt (Cat (Star Dot) (Lit (u "&")))) (Cat (Lit (u "v=")) id_group)).

(** [youtu\.be\/([a-zA-Z0-9_-]{11})] *)
Definition short_core : regex := Cat (Lit (u "youtu.be/")) id_group.

(** [youtube\.com\/embed\/([a-zA-Z0-9_-]{11})] *)
Definition embed_core : regex := Cat (Lit (u "youtube.com/embed/")) id_group.

(** [youtube\.com\/v\/([a-zA-Z0-9_-]{11})] *)
Definition v_core : regex := Cat (Lit (u "youtube.com/v/")) id_group.

Definition with_prefix (core : regex) : regex := Cat scheme (Cat www core).

Definition patterns : list regex :=
  [ with_prefix watch_core; with_prefix short_core;
    with_prefix embed_core; with_prefix v_core ].

(** The [for pattern in patterns] loop: the first pattern that is found
    decides. *)
Fixpoint first_found (ps : list regex) (url : str) : option str :=
  match ps with
  | [] => None
  | pattern :: ps' =>
      match search pattern url with
      | Some m => group1 m
      | None => first_found ps' url
      end
  end.

Definition extract_video_id (url : str) : option str := first_found patterns url.

(** ** [generate_lesson_from_text] *)

(** The helper [escape_markdown]: one global [replace] per special character,
    in the order of the list. *)
Definition special_chars : list str :=
  [ [backslash]; u "`"; u "*"; u "_"; u "{"; u "}"; u "["; u "]"; u "(";
    u ")"; u "#"; u "+"; u "-"; u "."; u "!"; u "|" ].

Definition escape_markdown (text : str) : str :=
  fold_left (fun text char => replace text char ([backslash] ++ char))
            special_chars text.

(** One turn of the loop of [escape_markdown]. *)
Definition escape_step (text char : str) : str :=
  replace text char ([backslash] ++ char).

(** [len(transcript_text.split())] *)
Definition word_count (transcript_text : str) : nat :=
  length (split transcript_text).

(** [transcript_text[:500] + "..." if len(transcript_text) > 500 else transcript_text] *)
Definition preview (transcript_text : str) : str :=
  if 500 <? length transcript_text
  then firstn 500 transcript_text ++ u "..."
  else transcript_text.

(** Lines of the template, each closed by a newline. *)
Definition unlines (ls : list str) : str := flat_map (fun l => l ++ nl) ls.

(** The template up to the word count. *)
Definition card_title : str :=
  unlines
    [ u "# " ++ [0x1F4DA%N] ++ u " Scheda di Lezione";
      [];
      u "## " ++ [0x1F4CB%N] ++ u " Informazioni Generali" ]
  ++ u "- **Lunghezza trascrizione**: ".

(** From the word count to the preview. *)
Definition card_preview_heading : str :=
  unlines
    [ u " parole";
      u "- **Lingua**: Italiano/Inglese";
      [];
      u "## " ++ [0x1F4DD%N] ++ u " Anteprima Trascrizione" ].

(** The placeholder sections and the roadmap note, from the end of the preview
    to the full transcript. *)
Definition card_sections : str :=
  unlines
    [ [];
      [];
      u "## " ++ [0x1F3AF%N] ++ u " Obiettivi della Lezione";
      u "*Questa sezione conterr" ++ [0xE0%N] ++
        u " gli obiettivi principali della lezione una volta integrata l'elaborazione AI.*";
      [];
      u "## " ++ [0x1F511%N] ++ u " Concetti Chiave";
      u "*Questa sezione elencher" ++ [0xE0%N] ++
        u " i concetti principali trattati nella lezione.*";
      [];
      u "1. Concetto 1";
      u "2. Concetto 2";
      u "3. Concetto 3";
      [];
      u "## " ++ [0x1F4D6%N] ++ u " Spiegazione Dettagliata";
      u "*Questa sezione conterr" ++ [0xE0%N] ++
        u " una spiegazione approfondita degli argomenti trattati.*";
      [];
      u "### Argomento 1";
      u "Descrizione dettagliata...";
      [];
      u "### Argomento 2";
      u "Descrizione dettagliata...";
      [];
      u "## " ++ [0x1F9EE%N] ++ u " Formule Importanti";
      u "*Se applicabile, questa sezione mostrer" ++ [0xE0%N] ++
        u " le formule matematiche o fisiche trattate.*";
      [];
      u "## " ++ [0x1F4A1%N] ++ u " Esempi";
      u "*Questa sezione conterr" ++ [0xE0%N] ++
        u " esempi pratici discussi nella lezione.*";
      [];
      u "## " ++ [0x1F4CC%N] ++ u " Riepilogo";
      u "*Questa sezione riassumer" ++ [0xE0%N] ++
        u " i punti chiave della lezione.*";
      [];
      u "---";
      [];
      u "## " ++ [0x1F52C%N] ++ u " Nota per il Futuro";
      u "Per ottenere un'analisi completa e intelligente del contenuto, questa applicazione pu"
        ++ [0xF2%N] ++ u " essere integrata con:";
      u "- OpenAI GPT-4";
      u "- Anthropic Claude";
      u "- Google Gemini";
      u "- Altri modelli di linguaggio avanzati";
      [];
      u "Il modello AI analizzer" ++ [0xE0%N] ++
        u " la trascrizione completa e generer" ++ [0xE0%N] ++ u " automaticamente:";
      u "- Titolo appropriato";
      u "- Riassunto";
      u "- Concetti chiave estratti";
      u "- Spiegazioni dettagliate";
      u "- Formule (se presenti)";
      u "- Esempi pratici";
      u "- Conclusioni";
      [];
      u "### " ++ [0x1F4C4%N] ++ u " Trascrizione Completa";
      u "<details>";
      u "<summary>Clicca per visualizzare la trascrizione completa</summary>";
      [] ].

(** After the full transcript. *)
Definition card_end : str := unlines [ []; []; u "</details>" ].

Definition generate_lesson_from_text (transcript_text : str) : str :=
  let word_count := word_count transcript_text in
  let preview := preview transcript_text in
  let preview_escaped := escape_markdown preview in
  let transcript_escaped := escape_markdown transcript_text in
  card_title ++ str_of_nat word_count ++ card_preview_heading
  ++ preview_escaped ++ card_sections ++ transcript_escaped ++ card_end.

(** ** The transcript service ([youtube_transcript_api]) as [get_transcript]
    sees it *)

(** The exceptions the program names or lets through; each carries the text
    that [str(e)] gives. *)
Inductive exn_class : Type :=
| TranscriptsDisabled
| NoTranscriptFound
| VideoUnavailable
| StopIteration
| TypeError
| OtherError        (* any other subclass of [Exception] raised by a library *)
| PlainException.   (* [Exception(msg)] *)

Record exn : Type := Exn { exn_cls : exn_class; exn_str : str }.

Inductive outcome (A : Type) : Type :=
| Return (a : A)
| Raise (e : exn).
Arguments Return {A} a.
Arguments Raise {A} e.

(** A segment of a fetched transcript.  The library that has [api.list]
    yields [FetchedTranscriptSnippet] objects, with the attributes [text],
    [start] and [duration] (times in some fixed unit). *)
Record entry : Type := Entry { text : str; start : N; duration : N }.

(** [entry[key]]: a snippet has attributes and no items, so that subscripting
    it raises. *)
Definition not_subscriptable : exn :=
  Exn TypeError (u "'FetchedTranscriptSnippet' object is not subscriptable").

Definition getitem (e : entry) (key : str) : outcome str :=
  Raise not_subscriptable.

(** A track of the list; [fetch_result] is what [transcript.fetch()] does. *)
Record transcript : Type := Transcript {
  language_code : str;
  fetch_result : outcome (list entry)
}.

(** The transcript list of a video: the values of the dictionary of manually
    created tracks and of the dictionary of generated tracks, each in
    insertion order and keyed by the language code of the track. *)
Record transcript_list : Type := TranscriptList {
  manually_created_transcripts : list transcript;
  generated_transcripts : list transcript
}.

(** The service: what [api.list(video_id)] does. *)
Definition service : Type := str -> outcome transcript_list.

(** The requests made to the service, in order. *)
Inductive api_call : Type :=
| call_list (video_id : str)
| call_fetch (language_code : str).

(** Computations that call the service and may raise: the calls made so far
    and the outcome. *)
Definition M (A : Type) : Type := list api_call * outcome A.

Definition ret {A} (a : A) : M A := ([], Return a).
Definition raise {A} (e : exn) : M A := ([], Raise e).

Definition bind {A B} (m : M A) (f : A -> M B) : M B :=
  match m with
  | (calls, Return a) => let (calls', r) := f a in (calls ++ calls', r)
  | (calls, Raise e) => (calls, Raise e)
  end.

(** [try: m except ...: handler]; the handler answers [None] for an exception
    no clause catches. *)
Definition try_except {A} (m : M A) (handler : exn -> option (M A)) : M A :=
  match m with
  | (calls, Return a) => (calls, Return a)
  | (calls, Raise e) =>
      match handler e with
      | Some h => let (calls', r) := h in (calls ++ calls', r)
      | None => (calls, Raise e)
      end
  end.

Notation "x <- m ;; k" := (bind m (fun x => k))
  (at level 61, m at next level, right associativity).

(** [language_code in transcript_dict] and [transcript_dict[language_code]]. *)
Definition dict_get (code : str) (d : list transcript) : option transcript :=
  find (fun t => str_eqb (language_code t) code) d.

(** [TranscriptList.find_transcript(language_codes)]: for each requested code
    in turn, the manually created track, else the generated one. *)
Fixpoint find_transcript (tl : transcript_list) (language_codes : list str)
    : outcome transcript :=
  match language_codes with
  | [] => Raise (Exn NoTranscriptFound [])
  | code :: codes =>
      match dict_get code (manually_created_transcripts tl) with
      | Some t => Return t
      | None =>
          match dict_get code (generated_transcripts tl) with
          | Some t => Return t
          | None => find_transcript tl codes
          end
      end
  end.

(** [iter(transcript_list)]: the manually created tracks, then the generated. *)
Definition iter_transcripts (tl : transcript_list) : list transcript :=
  manually_created_transcripts tl ++ generated_transcripts tl.

(** [next(iterator)] on a fresh iterator. *)
Definition next {A} (it : list A) : outcome A :=
  match it with
  | x :: _ => Return x
  | [] => Raise (Exn StopIteration [])
  end.

Definition api_list (api : service) (video_id : str) : M transcript_list :=
  ([call_list video_id], api video_id).

Definition fetch (t : transcript) : M (list entry) :=
  ([call_fetch (language_code t)], fetch_result t).

Definition catch (c : exn_class) {A} (h : M A) (e : exn) : option (M A) :=
  match exn_cls e, c with
  | TranscriptsDisabled, TranscriptsDisabled
  | NoTranscriptFound, NoTranscriptFound
  | VideoUnavailable, VideoUnavailable
  | StopIteration, StopIteration => Some h
  | _, _ => None
  end.

(** ** [get_transcript] *)

Definition msg_disabled : str :=
  u "Le trascrizioni sono disabilitate per questo video.".
Definition msg_not_found : str :=
  u "Nessuna trascrizione trovata per questo video.".
Definition msg_unavailable : str :=
  u "Video non disponibile o ID non valido.".

(** The inner [try]: Italian, then English, then the first track there is. *)
Definition select_transcript (video_id : str) (tl : transcript_list) : M transcript :=
  try_except ([], find_transcript tl [u "it"; u "en"])
    (catch NoTranscriptFound
       (try_except ([], next (iter_transcripts tl))
          (catch StopIteration (raise (Exn NoTranscriptFound video_id))))).

(** The comprehension [[entry['text'] for entry in transcript_data]]: it
    stops at the first subscript that raises. *)
Fixpoint texts_of (transcript_data : list entry) : outcome (list str) :=
  match transcript_data with
  | [] => Return []
  | entry :: rest =>
      match getitem entry (u "text") with
      | Raise e => Raise e
      | Return x =>
          match texts_of rest with
          | Return xs => Return (x :: xs)
          | Raise e => Raise e
          end
      end
  end.

Definition get_transcript (api : service) (video_id : str) : M str :=
  try_except
    (transcript_list <- api_list api video_id ;;
     transcript <- select_transcript video_id transcript_list ;;
     transcript_data <- fetch transcript ;;
     texts <- ([], texts_of transcript_data) ;;
     let full_text := join (u " ") texts in
     ret full_text)
    (fun e =>
       match exn_cls e with
       | TranscriptsDisabled => Some (raise (Exn PlainException msg_disabled))
       | NoTranscriptFound => Some (raise (Exn PlainException msg_not_found))
       | VideoUnavailable => Some (raise (Exn PlainException msg_unavailable))
       | _ => None
       end).

(** ** [main]: what a submission shows *)

(** What [st.video(data)] does with a string: Streamlit plays it when it is
    a URL and takes it for the path of a file otherwise, raising when it
    cannot open that file.  This is the framework's and the machine's
    affair; it is an input of the model. *)
Definition player : Type := str -> outcome unit.

(** The Streamlit calls that put something on the page, and the exception
    that ends a run when nothing catches it. *)
Inductive ui_call : Type :=
| uncaught (e : exn)
| st_error (body : str)
| st_info (body : str)
| st_success (body : str)
| st_expander (label : str)
| st_video (url : str)
| st_spinner (label : str)
| st_markdown (body : str)
| st_download_button (label data file_name mime : str)
| st_caption (body : str).

Definition indent (n : nat) : str := repeat 32%N n.

Definition msg_empty_url : str :=
  [0x26A0%N; 0xFE0F%N] ++ u " Per favore, inserisci un URL di YouTube valido.".

Definition msg_invalid_url : str :=
  [0x274C%N] ++ u " URL non valido. Assicurati di inserire un URL YouTube corretto.".

(** The hint shown with [msg_invalid_url]. *)
Definition supported_formats : str :=
  nl ++
  unlines
    [ indent 12 ++ u "**Formati supportati:**";
      indent 12 ++ u "- `https://www.youtube.com/watch?v=VIDEO_ID`";
      indent 12 ++ u "- `https://youtu.be/VIDEO_ID`";
      indent 12 ++ u "- `https://www.youtube.com/embed/VIDEO_ID`" ]
  ++ indent 12.

(** The list shown with a retrieval error. *)
Definition possible_causes : str :=
  nl ++
  unlines
    [ indent 16 ++ u "**Possibili cause:**";
      indent 16 ++ u "- Il video non ha trascrizioni disponibili";
      indent 16 ++ u "- Le trascrizioni sono state disabilitate dal creatore";
      indent 16 ++ u "- Il video " ++ [0xE8%N] ++ u " privato o non disponibile";
      indent 16 ++ u "- L'ID del video non " ++ [0xE8%N] ++ u " valido" ]
  ++ indent 16.

(** Truth value of [video_id] in [if not video_id]. *)
Definition truthy (o : option str) : bool :=
  match o with
  | None | Some [] => false
  | Some (_ :: _) => true
  end.

Definition footer : list ui_call :=
  [ st_markdown (u "---");
    st_markdown (u "**" ++ [0x1F4DA%N] ++ u " Lezioni-da-YouTube - MVP v1.0**");
    st_caption (u "Creato con Streamlit " ++ [0x1F388%N] ++
                u " | Trascrizioni da YouTube Transcript API " ++ [0x1F4DD%N]) ].

(** The body of [if generate_button:].  The result lists the requests made to
    the service and what was put on the page, and tells whether [main]
    ended there ([true]: it returned, or [st.video] raised, outside any
    [try]) or went on to the footer. *)
Definition on_generate (video : player) (api : service) (youtube_url : str)
    : list api_call * list ui_call * bool :=
  match youtube_url with
  | [] => ([], [st_error msg_empty_url], true)
  | _ :: _ =>
      let video_id := extract_video_id youtube_url in
      if negb (truthy video_id) then
        ([], [st_error msg_invalid_url; st_info supported_formats], true)
      else
        let video_id := match video_id with Some v => v | None => [] end in
        let shown :=
          [ st_success ([0x2705%N] ++ u " Video ID estratto: `" ++ video_id ++ u "`");
            st_expander ([0x1F3A5%N] ++ u " Anteprima Video");
            st_video youtube_url;
            st_spinner ([0x1F504%N] ++ u " Estrazione della trascrizione in corso...") ] in
        match video youtube_url with
        | Raise e =>
            ([],
             [ st_success ([0x2705%N] ++ u " Video ID estratto: `" ++ video_id ++ u "`");
               st_expander ([0x1F3A5%N] ++ u " Anteprima Video");
               uncaught e ],
             true)
        | Return _ =>
        match get_transcript api video_id with
        | (calls, Raise e) =>
            (calls,
             shown ++ [ st_error ([0x274C%N] ++ u " Errore: " ++ exn_str e);
                        st_info possible_causes ],
             true)
        | (calls, Return transcript_text) =>
            let lesson_card := generate_lesson_from_text transcript_text in
            (calls,
             shown ++
             [ st_success ([0x2705%N] ++ u " Trascrizione estratta! (" ++
                           str_of_nat (length transcript_text) ++ u " caratteri)");
               st_spinner ([0x1F916%N] ++ u " Generazione della scheda di lezione in corso...");
               st_success ([0x2705%N] ++ u " Scheda di lezione generata con successo!");
               st_markdown (u "---");
               st_markdown (u "## " ++ [0x1F4D6%N] ++ u " Scheda di Lezione Generata");
               st_markdown lesson_card;
               st_download_button
                 ([0x2B07%N; 0xFE0F%N] ++ u " Scarica Scheda di Lezione (Markdown)")
                 lesson_card
                 (u "lezione_" ++ video_id ++ u ".md")
                 (u "text/markdown") ],
             false)
        end
        end
  end.

(** What one run of [main] puts below the input row, for the text in the URL
    field and the state of the button. *)
Definition main (video : player) (api : service) (youtube_url : str)
    (generate_button : bool) : list api_call * list ui_call :=
  if generate_button then
    match on_generate video api youtube_url with
    | (calls, shown, true) => (calls, shown)
    | (calls, shown, false) => (calls, shown ++ footer)
    end
  else ([], footer).

(** ** Vocabulary of the statements *)

(** The characters the escaping pass is to escape. *)
Definition special_set : str := backslash :: u "`*_{}[]()#+-.!|".

Definition is_special (c : char) : bool := existsb (N.eqb c) special_set.

(** A character as it stands after escaping. *)
Definition esc_char (c : char) : str :=
  if is_special c then [backslash; c] else [c].

(** The number of maximal runs of non-space characters: a run starts at a
    non-space character that is the first character or follows a space. *)
Fixpoint word_starts (after_space : bool) (text : str) : nat :=
  match text with
  | [] => 0
  | c :: rest =>
      (if after_space && negb (is_space c) then 1 else 0)
      + word_starts (is_space c) rest
  end.

Definition token_count (text : str) : nat := word_starts true text.

(** An identifier: eleven characters of the class [[a-zA-Z0-9_-]]. *)
Definition valid_id (t : str) : Prop :=
  length t = 11 /\ Forall (fun c => is_id_char c = true) t.

(** What [(?:.*&)?] may cover between [watch?] and [v=]: nothing, or text
    without a newline that ends with [&]. *)
Definition query_filler (mid : str) : Prop :=
  mid = [] \/ exists q, mid = q ++ u "&" /\ ~ In newline q.

(** The four URL shapes: the text that stands right before the identifier. *)
Inductive shape : str -> Prop :=
| shape_watch (mid : str) :
    query_filler mid -> shape (u "youtube.com/watch?" ++ mid ++ u "v=")
| shape_short : shape (u "youtu.be/")
| shape_embed : shape (u "youtube.com/embed/")
| shape_v : shape (u "youtube.com/v/").

(** The patterns without their optional scheme and [www.]. *)
Definition cores : list regex := [watch_core; short_core; embed_core; v_core].

(** Eleven identifier characters ahead. *)
Definition id_ahead (s : str) : bool :=
  (11 <=? length s) && forallb is_id_char (firstn 11 s).

(** [t] stands in [url] right after the shape [sh]: [url = p ++ sh ++ t ++ s]. *)
Definition occurrence (url p sh t s : str) : Prop :=
  shape sh /\ valid_id t /\ url = p ++ sh ++ t ++ s.

(** The optional beginnings of a URL and the shapes without query
    parameters before [v=]. *)
Definition url_prefixes : list str :=
  [ []; u "http://"; u "https://"; u "www."; u "http://www."; u "https://www." ].

Definition plain_shapes : list str :=
  [ u "youtube.com/watch?v="; u "youtu.be/"; u "youtube.com/embed/";
    u "youtube.com/v/" ].

(** The list offers a track tagged [code]. *)
Definition offers (tl : transcript_list) (code : str) : Prop :=
  exists t, In t (iter_transcripts tl) /\ language_code t = code.

(** The message [get_transcript] gives for a failure of the service. *)
Definition user_message (c : exn_class) : option str :=
  match c with
  | TranscriptsDisabled => Some msg_disabled
  | NoTranscriptFound => Some msg_not_found
  | VideoUnavailable => Some msg_unavailable
  | _ => None
  end.

(** An exception as it leaves [get_transcript]. *)
Definition surfaced (e : exn) : exn :=
  match user_message (exn_cls e) with
  | Some msg => Exn PlainException msg
  | None => e
  end.

(** The failure a retrieval runs into, if any: listing the tracks fails, or
    there is no track to select, or fetching the selected track fails. *)
Definition retrieval_failure (api : service) (video_id : str) : option exn :=
  match api video_id with
  | Raise e => Some e
  | Return tl =>
      match snd (select_transcript video_id tl) with
      | Raise e => Some e
      | Return t =>
          match fetch_result t with
          | Raise e => Some e
          | Return _ => None
          end
      end
  end.

(** What [main] shows before it asks for the transcript. *)
Definition shown_before_retrieval (youtube_url video_id : str) : list ui_call :=
  [ st_success ([0x2705%N] ++ u " Video ID estratto: `" ++ video_id ++ u "`");
    st_expander ([0x1F3A5%N] ++ u " Anteprima Video");
    st_video youtube_url;
    st_spinner ([0x1F504%N] ++ u " Estrazione della trascrizione in corso...") ].

(** What [main] shows when the retrieval fails with [e]. *)
Definition shown_on_failure (youtube_url video_id : str) (e : exn) : list ui_call :=
  shown_before_retrieval youtube_url video_id
  ++ [ st_error ([0x274C%N] ++ u " Errore: " ++ exn_str e);
       st_info possible_causes ].

(** A list of requests asks for the tracks once and fetches at most one. *)
Definition single_attempt (video_id : str) (calls : list api_call) : Prop :=
  calls = [call_list video_id]
  \/ exists code, calls = [call_list video_id; call_fetch code].

(** ** Sample services *)

Definition hello_world : list entry :=
  [ Entry (u "Hello") 0 1; Entry (u "world") 1 1 ].

(** A video with an English track only. *)
Definition english_only : service :=
  fun _ => Return (TranscriptList [] [Transcript (u "en") (Return hello_world)]).

(** A video with an English track, listed first, and an Italian one. *)
Definition english_and_italian : transcript_list :=
  TranscriptList
    [ Transcript (u "en") (Return hello_world) ]
    [ Transcript (u "it") (Return [Entry (u "Ciao") 0 1]) ].

(** A video whose transcripts are disabled. *)
Definition transcripts_disabled : service :=
  fun _ => Raise (Exn TranscriptsDisabled (u "disabled")).

(** A video whose only track has no segment. *)
Definition empty_track : service :=
  fun _ => Return (TranscriptList [] [Transcript (u "en") (Return [])]).

(** A player that plays what starts with [http://] or [https://] and fails
    to open anything else. *)
Definition plays_http : player :=
  fun data =>
    if starts_with (u "http://") data || starts_with (u "https://") data
    then Return tt
    else Raise (Exn OtherError (u "Error opening '" ++ data ++ u "'")).

(** ** Further vocabulary *)

(** Reading an escaped text back: a backslash is dropped and the character
    after it kept. *)
Fixpoint unescape (text : str) : str :=
  match text with
  | [] => []
  | c :: rest =>
      if N.eqb c backslash then
        match rest with
        | [] => [c]
        | d :: rest' => d :: unescape rest'
        end
      else c :: unescape rest
  end.

(** A text in which every special character is the second half of a pair
    backslash, special character. *)
Fixpoint well_escaped (text : str) : bool :=
  match text with
  | [] => true
  | c :: rest =>
      if N.eqb c backslash then
        match rest with
        | [] => false
        | d :: rest' => is_special d && well_escaped rest'
        end
      else negb (is_special c) && well_escaped rest
  end.

(** A text without its optional beginning: [https://] or [http://], then
    [www.]. *)
Definition strip_opt (l s : str) : str :=
  match strip_prefix l s with
  | Some r => r
  | None => s
  end.

Definition strip_scheme (s : str) : str :=
  match strip_prefix (u "https://") s with
  | Some r => r
  | None => strip_opt (u "http://") s
  end.

Definition strip_beginning (s : str) : str :=
  strip_opt (u "www.") (strip_scheme s).

(** The calls of [main] that show the outcome of a successful run. *)
Definition shows_card (c : ui_call) : bool :=
  match c with
  | st_markdown _ | st_download_button _ _ _ _ | st_caption _ => true
  | _ => false
  end.

(** The characters a download file name is made of. *)
Definition file_name_char (c : char) : bool := is_id_char c || N.eqb c 46.

(** A service that is out of reach. *)
Definition unreachable : service :=
  fun _ => Raise (Exn OtherError (u "connection lost")).

(** * Properties *)

(** ** Strings *)

Lemma flat_map_flat_map {A B C : Type} (f : B -> list C) (g : A -> list B) (l : list A) :
  flat_map f (flat_map g l) = flat_map (fun x => flat_map f (g x)) l.
Proof.
  induction l as [|x l IH]; simpl.
  - reflexivity.
  - rewrite flat_map_app, IH. reflexivity.
Qed.

Lemma flat_map_singleton_id {A : Type} (l : list A) : flat_map (fun x => [x]) l = l.
Proof. induction l as [|x l IH]; simpl; [reflexivity | now rewrite IH]. Qed.

(** Replacing a one-character [old] rewrites the text character by character. *)
Lemma replace_char (c : char) (new text : str) :
  replace text [c] new = flat_map (fun x => if N.eqb c x then new else [x]) text.
Proof.
  unfold replace. induction text as [|x text IH].
  - reflexivity.
  - cbn [replace_from starts_with flat_map length Nat.sub].
    rewrite andb_true_r.
    destruct (N.eqb c x); rewrite IH; reflexivity.
Qed.

(** ** [escape_markdown] *)

Lemma escape_steps_pointwise (cs : list char) (text : str) :
  fold_left escape_step (map (fun c => [c]) cs) text
  = flat_map (fun x => fold_left escape_step (map (fun c => [c]) cs) [x]) text.
Proof.
  revert text. induction cs as [|c cs IH]; intro text.
  - simpl. symmetry. apply flat_map_singleton_id.
  - cbn [map fold_left]. unfold escape_step at 2 4.
    rewrite IH, replace_char, flat_map_flat_map.
    apply flat_map_ext. intro x.
    rewrite replace_char. cbn [flat_map]. rewrite app_nil_r.
    symmetry. apply IH.
Qed.

Lemma special_chars_singletons :
  special_chars = map (fun c => [c]) special_set.
Proof. reflexivity. Qed.

Lemma escape_markdown_pointwise (text : str) :
  escape_markdown text = flat_map (fun x => escape_markdown [x]) text.
Proof.
  unfold escape_markdown. fold escape_step.
  rewrite special_chars_singletons. apply escape_steps_pointwise.
Qed.

Lemma replace_char_absent (c : char) (new text : str) :
  ~ In c text -> replace text [c] new = text.
Proof.
  intro H. rewrite replace_char.
  induction text as [|x text IH]; simpl.
  - reflexivity.
  - destruct (N.eqb_spec c x) as [->|_].
    + exfalso. apply H. now left.
    + simpl. f_equal. apply IH. intro Hin. apply H. now right.
Qed.

(** The steps for characters that do not occur in the text leave it as it is. *)
Lemma escape_steps_untouched (cs : list char) (text : str) :
  (forall y, In y text -> ~ In y cs) ->
  fold_left escape_step (map (fun c => [c]) cs) text = text.
Proof.
  revert text. induction cs as [|c cs IH]; intros text H.
  - reflexivity.
  - cbn [map fold_left]. unfold escape_step at 2.
    rewrite replace_char_absent.
    + apply IH. intros y Hy Hin. apply (H y Hy). now right.
    + intro Hin. apply (H c Hin). now left.
Qed.

(** A character other than the backslash, through the steps of a list that
    holds no backslash and no character twice: it is prefixed once when the
    list holds it, and the backslash put before it is never touched again. *)
Lemma escape_steps_char (cs : list char) (x : char) :
  NoDup cs -> ~ In backslash cs -> x <> backslash ->
  fold_left escape_step (map (fun c => [c]) cs) [x]
  = if existsb (N.eqb x) cs then [backslash; x] else [x].
Proof.
  intros Hnd Hbs Hx. induction cs as [|c cs IH].
  - reflexivity.
  - cbn [map fold_left existsb]. unfold escape_step at 2.
    rewrite replace_char. cbn [flat_map]. rewrite app_nil_r.
    inversion Hnd as [|? ? Hc Hnd']; subst.
    rewrite (N.eqb_sym x c).
    destruct (N.eqb_spec c x) as [->|Hcx].
    + cbn [orb app]. apply escape_steps_untouched.
      intros y [<-|[<-|[]]] Hin.
      * apply Hbs. now right.
      * now apply Hc.
    + cbn [orb]. apply IH; [assumption|].
      intro Hin. apply Hbs. now right.
Qed.

Lemma special_set_tail_ok :
  NoDup (tl special_set) /\ ~ In backslash (tl special_set).
Proof.
  split.
  - repeat (constructor; [cbv; intuition discriminate|]). constructor.
  - cbv; intuition discriminate.
Qed.

Lemma escape_markdown_char (x : char) : escape_markdown [x] = esc_char x.
Proof.
  unfold escape_markdown. fold escape_step. rewrite special_chars_singletons.
  unfold esc_char, is_special.
  change special_set with (backslash :: tl special_set).
  cbn [map fold_left existsb]. unfold escape_step at 2.
  rewrite replace_char. cbn [flat_map]. rewrite app_nil_r.
  destruct special_set_tail_ok as [Hnd Hbs].
  rewrite (N.eqb_sym x backslash).
  destruct (N.eqb_spec backslash x) as [<-|Hx].
  - cbn [orb app]. apply escape_steps_untouched.
    intros y [<-|[<-|[]]]; exact Hbs.
  - cbn [orb]. apply escape_steps_char; auto.
Qed.

Lemma escape_markdown_flat_map (text : str) :
  escape_markdown text = flat_map esc_char text.
Proof.
  rewrite escape_markdown_pointwise.
  apply flat_map_ext. exact escape_markdown_char.
Qed.

Lemma escape_markdown_app (a b : str) :
  escape_markdown (a ++ b) = escape_markdown a ++ escape_markdown b.
Proof. rewrite !escape_markdown_flat_map. apply flat_map_app. Qed.

(** C2. For every text, [escape_markdown] (the sixteen global replacements of
    [special_chars], made one after the other in the order of the list) puts
    one backslash before every occurrence of a character of the set
    [\ ` * _ { } [ ] ( ) # + - . ! |] and changes nothing else, the
    backslashes it has put in included; so ["a*b_c"] becomes ["a\*b\_c"]. *)
Theorem escape_markdown_escapes_each_special (text : str) :
  escape_markdown text = fold_left escape_step special_chars text
  /\ escape_markdown text = flat_map esc_char text
  /\ escape_markdown (u "a*b_c")
     = u "a" ++ [backslash] ++ u "*b" ++ [backslash] ++ u "_c".
Proof.
  split; [reflexivity|]. split.
  - apply escape_markdown_flat_map.
  - vm_compute. reflexivity.
Qed.

(** ** Escaping twice *)

Lemma esc_char_length (c : char) :
  length (esc_char c) = if is_special c then 2 else 1.
Proof. unfold esc_char. now destruct (is_special c). Qed.

Lemma escape_markdown_length (text : str) :
  length (escape_markdown text) = length text + length (filter is_special text).
Proof.
  rewrite escape_markdown_flat_map.
  induction text as [|c text IH]; cbn [flat_map filter length].
  - reflexivity.
  - rewrite length_app, IH, esc_char_length.
    destruct (is_special c); cbn [length]; lia.
Qed.

Lemma escape_markdown_specials (text : str) :
  length (filter is_special (escape_markdown text))
  = 2 * length (filter is_special text).
Proof.
  rewrite escape_markdown_flat_map.
  induction text as [|c text IH]; cbn [flat_map filter length].
  - reflexivity.
  - rewrite filter_app, length_app, IH. unfold esc_char.
    destruct (is_special c) eqn:E; cbn [filter]; rewrite ?E;
      change (is_special backslash) with true; cbn [length]; lia.
Qed.

Lemma escape_markdown_plain (text : str) :
  filter is_special text = [] -> escape_markdown text = text.
Proof.
  rewrite escape_markdown_flat_map.
  induction text as [|c text IH]; cbn [flat_map filter]; [reflexivity|].
  unfold esc_char. destruct (is_special c); [discriminate|].
  intro H. cbn [app]. f_equal. now apply IH.
Qed.

(** C8. Escaping is not idempotent: there is a text (["*"]) whose escape
    changes when it is escaped again; and this is so for exactly the texts
    that hold a special character, as the second pass escapes the backslashes
    the first one has put in. *)
Theorem escape_markdown_not_idempotent :
  (exists x, escape_markdown (escape_markdown x) <> escape_markdown x)
  /\ (forall x, escape_markdown (escape_markdown x) = escape_markdown x
                <-> filter is_special x = []).
Proof.
  split.
  - exists (u "*"). vm_compute. discriminate.
  - intro x. split.
    + intro H. apply (f_equal (@length _)) in H.
      rewrite !escape_markdown_length, escape_markdown_specials in H.
      destruct (filter is_special x); [reflexivity|]. cbn [length] in H. lia.
    + intro H. now rewrite !(escape_markdown_plain x H).
Qed.

(** ** The lesson card *)

Lemma split_from_length (cur text : str) :
  length (split_from cur text)
  = word_starts (match cur with [] => true | _ :: _ => false end) text
    + match cur with [] => 0 | _ :: _ => 1 end.
Proof.
  revert cur. induction text as [|c text IH]; intro cur.
  - destruct cur; reflexivity.
  - cbn [split_from word_starts]. destruct (is_space c) eqn:E.
    + destruct cur as [|y cur]; cbn [length]; rewrite IH; cbn; lia.
    + rewrite IH. destruct cur; cbn; lia.
Qed.

Lemma word_count_token_count (text : str) : word_count text = token_count text.
Proof.
  unfold word_count, split, token_count. rewrite split_from_length. lia.
Qed.

(** The words are the runs themselves: none is empty, none holds a space,
    and together they are the text without its spaces. *)
Lemma split_from_words (cur text : str) :
  Forall (fun c => is_space c = false) cur ->
  Forall (fun w => w <> [] /\ Forall (fun c => is_space c = false) w)
         (split_from cur text)
  /\ concat (split_from cur text)
     = rev cur ++ filter (fun c => negb (is_space c)) text.
Proof.
  revert cur. induction text as [|c text IH]; intros cur Hcur.
  - destruct cur as [|y cur]; cbn [split_from concat filter].
    + split; [constructor|reflexivity].
    + split.
      * constructor; [|constructor]. split.
        -- intro E. apply (f_equal (@length _)) in E.
           rewrite length_rev in E. discriminate E.
        -- now apply Forall_rev.
      * now rewrite !app_nil_r.
  - cbn [split_from filter]. destruct (is_space c) eqn:E; cbn [negb].
    + destruct (IH [] (Forall_nil _)) as [F C].
      destruct cur as [|y cur].
      * split; assumption.
      * split.
        -- constructor; [|assumption]. split.
           ++ intro E'. apply (f_equal (@length _)) in E'.
              rewrite length_rev in E'. discriminate E'.
           ++ now apply Forall_rev.
        -- cbn [concat]. now rewrite C.
    + destruct (IH (c :: cur)) as [F C]; [now constructor|].
      split; [assumption|]. rewrite C. cbn [rev]. now rewrite <- app_assoc.
Qed.

(** C7. For every transcript, the number in the line
    [- **Lunghezza trascrizione**: N parole] of the card is the number of
    whitespace-delimited tokens of the raw transcript: the tokens are the
    maximal runs of non-space characters, which [split] returns in order. *)
Theorem word_count_in_card (transcript_text : str) :
  generate_lesson_from_text transcript_text
  = card_title ++ str_of_nat (token_count transcript_text) ++ card_preview_heading
    ++ escape_markdown (preview transcript_text) ++ card_sections
    ++ escape_markdown transcript_text ++ card_end
  /\ length (split transcript_text) = token_count transcript_text
  /\ Forall (fun w => w <> [] /\ Forall (fun c => is_space c = false) w)
            (split transcript_text)
  /\ concat (split transcript_text)
     = filter (fun c => negb (is_space c)) transcript_text.
Proof.
  split; [|split].
  - unfold generate_lesson_from_text.
    now rewrite word_count_token_count.
  - apply word_count_token_count.
  - apply (split_from_words [] transcript_text). constructor.
Qed.

(** C3. For every transcript: when it has at most 500 characters (500
    included) the preview is the whole raw transcript, with nothing added;
    when it has more, the preview is its first 500 characters followed by
    ["..."].  The escaping pass comes after, so that the card shows the three
    dots of the ellipsis escaped like the rest of the preview. *)
Theorem preview_truncation (transcript_text : str) :
  generate_lesson_from_text transcript_text
  = card_title ++ str_of_nat (word_count transcript_text) ++ card_preview_heading
    ++ escape_markdown (preview transcript_text) ++ card_sections
    ++ escape_markdown transcript_text ++ card_end
  /\ ((length transcript_text <= 500 /\ preview transcript_text = transcript_text)
      \/ (500 < length transcript_text
          /\ preview transcript_text = firstn 500 transcript_text ++ u "..."
          /\ length (firstn 500 transcript_text) = 500
          /\ escape_markdown (preview transcript_text)
             = escape_markdown (firstn 500 transcript_text)
               ++ [backslash; 46; backslash; 46; backslash; 46]%N)).
Proof.
  split; [reflexivity|]. unfold preview.
  destruct (500 <? length transcript_text) eqn:E.
  - apply Nat.ltb_lt in E. right. split; [assumption|].
    split; [reflexivity|]. split.
    + rewrite length_firstn. lia.
    + rewrite escape_markdown_app. f_equal.
  - apply Nat.ltb_ge in E. left. split; [assumption|reflexivity].
Qed.


Example preview_500 :
  preview (repeat 97%N 500) = repeat 97%N 500
  /\ preview (repeat 97%N 501) = repeat 97%N 500 ++ u "...".
Proof. split; vm_compute; reflexivity. Qed.

Example word_count_hello_world : word_count (u "  Hello   world ") = 2.
Proof. reflexivity. Qed.


(** ** The matcher *)

Lemma strip_prefix_app (l r : str) : strip_prefix l (l ++ r) = Some r.
Proof.
  induction l as [|x l IH]; simpl.
  - reflexivity.
  - now rewrite N.eqb_refl.
Qed.

Lemma strip_prefix_inv (l s r : str) : strip_prefix l s = Some r -> s = l ++ r.
Proof.
  revert s. induction l as [|x l IH]; intros s H; simpl in H.
  - now inversion H.
  - destruct s as [|y s]; [discriminate|].
    destruct (N.eqb_spec x y) as [->|_]; [|discriminate].
    simpl. f_equal. now apply IH.
Qed.

Lemma matches_lit_app (l : str) (g : option str) (r : str) :
  matches (Lit l) g (l ++ r) = [(g, r)].
Proof. simpl. now rewrite strip_prefix_app. Qed.

Lemma in_matches_lit (l : str) (g : option str) (s : str) (m : mstate) :
  In m (matches (Lit l) g s) -> fst m = g /\ s = l ++ snd m.
Proof.
  simpl. destruct (strip_prefix l s) as [r|] eqn:E; [|intros []].
  intros [<-|[]]. split; [reflexivity|]. now apply strip_prefix_inv.
Qed.

Lemma in_matches_cat (r1 r2 : regex) (g : option str) (s : str) (m : mstate) :
  In m (matches (Cat r1 r2) g s) <->
  exists m1, In m1 (matches r1 g s) /\ In m (matches r2 (fst m1) (snd m1)).
Proof. simpl. apply in_flat_map. Qed.

Lemma in_matches_opt (r : regex) (g : option str) (s : str) (m : mstate) :
  In m (matches (Opt r) g s) <-> In m (matches r g s) \/ m = (g, s).
Proof.
  simpl. rewrite in_app_iff. simpl. intuition.
Qed.

Lemma matches_cat (r1 r2 : regex) (g : option str) (s : str) :
  matches (Cat r1 r2) g s
  = flat_map (fun m : mstate => matches r2 (fst m) (snd m)) (matches r1 g s).
Proof. reflexivity. Qed.

Lemma matches_opt (r : regex) (g : option str) (s : str) :
  matches (Opt r) g s = matches r g s ++ [(g, s)].
Proof. reflexivity. Qed.

Lemma matches_rep (n : nat) (r : regex) (g : option str) (s : str) :
  matches (Rep n r) g s = rep_loop (matches r) n g s.
Proof. reflexivity. Qed.

Lemma matches_grp (r : regex) (g : option str) (s : str) :
  matches (Grp r) g s
  = map (fun m : mstate => (Some (firstn (length s - length (snd m)) s), snd m))
        (matches r g s).
Proof. reflexivity. Qed.

Lemma matches_star (r : regex) (g : option str) (s : str) :
  matches (Star r) g s = star_loop (matches r) (length s) g s.
Proof. reflexivity. Qed.

(** [p{n}] on a character set: the next [n] characters, all in the set. *)
Lemma rep_cls (p : char -> bool) (n : nat) (g : option str) (s : str) :
  rep_loop (matches (Cls p)) n g s
  = if (n <=? length s) && forallb p (firstn n s) then [(g, skipn n s)] else [].
Proof.
  revert s. induction n as [|n IH]; intro s.
  - simpl. reflexivity.
  - destruct s as [|x s]; [reflexivity|].
    cbn [rep_loop matches]. destruct (p x) eqn:Ex.
    + cbn [flat_map fst snd]. rewrite app_nil_r, IH.
      cbn [length firstn forallb skipn]. rewrite Ex.
      change (S n <=? S (length s)) with (n <=? length s). reflexivity.
    + cbn [flat_map length firstn forallb]. rewrite Ex.
      now rewrite andb_false_r.
Qed.

Lemma matches_id_group (g : option str) (s : str) :
  matches id_group g s
  = if id_ahead s then [(Some (firstn 11 s), skipn 11 s)] else [].
Proof.
  unfold id_group. rewrite matches_grp, matches_rep, rep_cls. fold (id_ahead s).
  destruct (id_ahead s) eqn:E; [|reflexivity].
  cbn [map snd]. rewrite length_skipn.
  unfold id_ahead in E. apply andb_prop in E as [E _].
  apply Nat.leb_le in E.
  replace (length s - (length s - 11)) with 11 by lia. reflexivity.
Qed.

Lemma id_ahead_valid (s : str) : id_ahead s = true -> valid_id (firstn 11 s).
Proof.
  unfold id_ahead, valid_id. intro E. apply andb_prop in E as [E1 E2].
  apply Nat.leb_le in E1. split.
  - rewrite length_firstn. lia.
  - apply Forall_forall. now apply forallb_forall.
Qed.

Lemma valid_id_ahead (t r : str) :
  valid_id t -> id_ahead (t ++ r) = true /\ firstn 11 (t ++ r) = t /\ skipn 11 (t ++ r) = r.
Proof.
  intros [Hl Hc].
  assert (F : firstn 11 (t ++ r) = t).
  { rewrite <- Hl. rewrite firstn_app, Nat.sub_diag, firstn_all. simpl. apply app_nil_r. }
  assert (K : skipn 11 (t ++ r) = r).
  { rewrite <- Hl. rewrite skipn_app, Nat.sub_diag, skipn_all. reflexivity. }
  repeat split; try assumption.
  unfold id_ahead. rewrite F. apply andb_true_intro. split.
  - apply Nat.leb_le. rewrite length_app. lia.
  - apply forallb_forall. now apply Forall_forall.
Qed.

Lemma matches_id_group_app (g : option str) (t r : str) :
  valid_id t -> matches id_group g (t ++ r) = [(Some t, r)].
Proof.
  intro H. rewrite matches_id_group.
  destruct (valid_id_ahead t r H) as (-> & -> & ->). reflexivity.
Qed.

Lemma in_matches_id_group (g : option str) (s : str) (m : mstate) :
  In m (matches id_group g s) ->
  exists t, valid_id t /\ fst m = Some t /\ s = t ++ snd m.
Proof.
  rewrite matches_id_group. destruct (id_ahead s) eqn:E; [|intros []].
  intros [<-|[]]. exists (firstn 11 s). split; [now apply id_ahead_valid|].
  split; [reflexivity|]. cbn [snd]. symmetry. apply firstn_skipn.
Qed.

(** [.*]: any stretch without a newline, the longest first. *)
Lemma in_star_dot (fuel : nat) (g : option str) (s : str) (m : mstate) :
  In m (star_loop (matches Dot) fuel g s) ->
  fst m = g /\ exists q, s = q ++ snd m /\ ~ In newline q.
Proof.
  revert s. induction fuel as [|fuel IH]; intros s H.
  - destruct H as [<-|[]]. split; [reflexivity|]. exists []. now split.
  - cbn [star_loop] in H. apply in_app_or in H as [H|[<-|[]]].
    + apply in_flat_map in H as (m1 & H1 & H2).
      destruct s as [|x s]; [destruct H1|]. cbn [matches] in H1.
      destruct (N.eqb_spec x newline) as [|Hx]; [destruct H1|].
      destruct H1 as [<-|[]]. cbn [fst snd] in H2.
      destruct (length s <? length (x :: s)); [|destruct H2].
      apply IH in H2 as (Hg & q & -> & Hq). split; [assumption|].
      exists (x :: q). split; [reflexivity|].
      intros [E|E]; [now apply Hx | now apply Hq].
    + split; [reflexivity|]. exists []. now split.
Qed.

Lemma star_dot_reaches (q r : str) (g : option str) (fuel : nat) :
  ~ In newline q -> length q <= fuel ->
  In (g, r) (star_loop (matches Dot) fuel g (q ++ r)).
Proof.
  revert fuel. induction q as [|x q IH]; intros fuel Hq Hf.
  - destruct fuel; cbn [star_loop app].
    + now left.
    + apply in_or_app. right. now left.
  - destruct fuel as [|fuel]; [simpl in Hf; lia|].
    cbn [star_loop app matches]. apply in_or_app. left.
    destruct (N.eqb_spec x newline) as [E|_].
    + exfalso. apply Hq. now left.
    + cbn [flat_map fst snd]. rewrite app_nil_r.
      assert (L : (length (q ++ r) <? length (x :: q ++ r)) = true)
        by (apply Nat.ltb_lt; simpl; lia).
      rewrite L. apply IH.
      * intro E. apply Hq. now right.
      * simpl in Hf. lia.
Qed.

(** ** The four patterns *)

Lemma in_simple_core (l : str) (g : option str) (s : str) (m : mstate) :
  In m (matches (Cat (Lit l) id_group) g s) ->
  exists t, valid_id t /\ fst m = Some t /\ s = l ++ t ++ snd m.
Proof.
  intro H. apply in_matches_cat in H as (m1 & H1 & H2).
  apply in_matches_lit in H1 as [_ ->].
  apply in_matches_id_group in H2 as (t & Ht & Hg & ->).
  exists t. auto.
Qed.

Lemma simple_core_app (l : str) (g : option str) (t r : str) :
  valid_id t -> matches (Cat (Lit l) id_group) g (l ++ t ++ r) = [(Some t, r)].
Proof.
  intro H. rewrite matches_cat, matches_lit_app. cbn [flat_map fst snd].
  rewrite matches_id_group_app by assumption. reflexivity.
Qed.

Lemma in_watch_core (g : option str) (s : str) (m : mstate) :
  In m (matches watch_core g s) ->
  exists mid t, query_filler mid /\ valid_id t /\ fst m = Some t /\
                s = u "youtube.com/watch?" ++ mid ++ u "v=" ++ t ++ snd m.
Proof.
  unfold watch_core. intro H.
  apply in_matches_cat in H as (m1 & H1 & H).
  apply in_matches_lit in H1 as [_ ->].
  apply in_matches_cat in H as (m2 & H2 & H).
  apply in_simple_core in H as (t & Ht & Hg & E).
  apply in_matches_opt in H2 as [H2| ->].
  - apply in_matches_cat in H2 as (m3 & H3 & H2).
    rewrite matches_star in H3.
    apply in_star_dot in H3 as (_ & q & Eq & Hq).
    apply in_matches_lit in H2 as [_ E2].
    exists (q ++ u "&"), t. split; [right; now exists q|].
    split; [assumption|]. split; [assumption|].
    rewrite Eq, E2, E. now rewrite <- !app_assoc.
  - exists [], t. cbn [snd] in E. rewrite E. split; [now left|]. auto.
Qed.

Lemma watch_core_app (mid : str) (g : option str) (t r : str) :
  query_filler mid -> valid_id t ->
  In (Some t, r)
     (matches watch_core g (u "youtube.com/watch?" ++ mid ++ u "v=" ++ t ++ r)).
Proof.
  intros Hm Ht. unfold watch_core.
  apply in_matches_cat. exists (g, mid ++ u "v=" ++ t ++ r).
  split; [rewrite matches_lit_app; now left|]. cbn [fst snd].
  apply in_matches_cat. exists (g, u "v=" ++ t ++ r). split.
  - apply in_matches_opt. destruct Hm as [->|(q & -> & Hq)].
    + now right.
    + left. apply in_matches_cat. exists (g, u "&" ++ u "v=" ++ t ++ r). split.
      * rewrite matches_star, <- app_assoc. apply star_dot_reaches; [assumption|].
        rewrite length_app. lia.
      * cbn [fst snd]. rewrite matches_lit_app. now left.
  - cbn [fst snd]. rewrite simple_core_app by assumption. now left.
Qed.

(** Every match of a core stands on a shape and captures the identifier that
    follows it. *)
Lemma core_sound (c : regex) (g : option str) (s : str) (m : mstate) :
  In c cores -> In m (matches c g s) ->
  exists sh t, shape sh /\ valid_id t /\ fst m = Some t /\ s = sh ++ t ++ snd m.
Proof.
  intros [<-|[<-|[<-|[<-|[]]]]] H.
  - apply in_watch_core in H as (mid & t & Hm & Ht & Hg & ->).
    exists (u "youtube.com/watch?" ++ mid ++ u "v="), t.
    split; [now constructor|]. split; [assumption|]. split; [assumption|].
    now rewrite <- !app_assoc.
  - apply in_simple_core in H as (t & Ht & Hg & ->).
    exists (u "youtu.be/"), t. split; [constructor|]. auto.
  - apply in_simple_core in H as (t & Ht & Hg & ->).
    exists (u "youtube.com/embed/"), t. split; [constructor|]. auto.
  - apply in_simple_core in H as (t & Ht & Hg & ->).
    exists (u "youtube.com/v/"), t. split; [constructor|]. auto.
Qed.

(** Every shape followed by an identifier is matched by the core of its
    pattern. *)
Lemma core_complete (sh : str) :
  shape sh ->
  exists c, In c cores /\
    forall g t r, valid_id t -> In (Some t, r) (matches c g (sh ++ t ++ r)).
Proof.
  intros [mid Hm| | |].
  - exists watch_core. split; [now left|]. intros g t r Ht.
    rewrite <- !app_assoc. now apply watch_core_app.
  - exists short_core. split; [right; now left|]. intros g t r Ht.
    unfold short_core. rewrite simple_core_app by assumption. now left.
  - exists embed_core. split; [right; right; now left|]. intros g t r Ht.
    unfold embed_core. rewrite simple_core_app by assumption. now left.
  - exists v_core. split; [right; right; right; now left|]. intros g t r Ht.
    unfold v_core. rewrite simple_core_app by assumption. now left.
Qed.

(** The optional scheme and [www.] only move the start of a match. *)
Lemma in_with_prefix (core : regex) (g : option str) (s : str) (m : mstate) :
  In m (matches (with_prefix core) g s) ->
  exists pre s', s = pre ++ s' /\ In m (matches core g s').
Proof.
  unfold with_prefix, scheme, www. intro H.
  apply in_matches_cat in H as (m1 & H1 & H).
  apply in_matches_cat in H as (m2 & H2 & H).
  assert (P1 : fst m1 = g /\ exists a, s = a ++ snd m1).
  { apply in_matches_opt in H1 as [H1| ->]; [|split; [reflexivity|now exists []]].
    apply in_matches_cat in H1 as (x1 & X1 & H1).
    apply in_matches_lit in X1 as [G1 ->].
    apply in_matches_cat in H1 as (x2 & X2 & H1).
    apply in_matches_lit in H1 as [G3 E3].
    apply in_matches_opt in X2 as [X2| ->].
    - apply in_matches_lit in X2 as [G2 ->].
      split; [congruence|]. rewrite E3.
      exists (u "http" ++ u "s" ++ u "://"). now rewrite <- !app_assoc.
    - cbn [fst snd] in *. split; [congruence|]. rewrite E3.
      exists (u "http" ++ u "://"). now rewrite <- !app_assoc. }
  destruct P1 as (G1 & a & ->).
  assert (P2 : fst m2 = g /\ exists b, snd m1 = b ++ snd m2).
  { apply in_matches_opt in H2 as [H2| ->]; [|split; [assumption|now exists []]].
    apply in_matches_lit in H2 as [G2 ->]. split; [congruence|].
    now exists (u "www."). }
  destruct P2 as (G2 & b & ->).
  exists (a ++ b), (snd m2). rewrite <- app_assoc. split; [reflexivity|].
  now rewrite <- G2.
Qed.

Lemma with_prefix_keeps (core : regex) (g : option str) (s : str) (m : mstate) :
  In m (matches core g s) -> In m (matches (with_prefix core) g s).
Proof.
  intro H. unfold with_prefix, scheme, www.
  apply in_matches_cat. exists (g, s). split; [apply in_matches_opt; now right|].
  apply in_matches_cat. exists (g, s). split; [apply in_matches_opt; now right|].
  exact H.
Qed.

(** ** [re.search] *)

Lemma search_some (r : regex) (url : str) (m : mstate) :
  search r url = Some m ->
  exists p s, url = p ++ s /\ In m (matches r None s).
Proof.
  induction url as [|x url IH]; cbn [search].
  - destruct (matches r None []) as [|m0 l] eqn:E; [discriminate|].
    intros [= <-]. exists [], []. rewrite E. split; [reflexivity|now left].
  - destruct (matches r None (x :: url)) as [|m0 l] eqn:E.
    + intro H. apply IH in H as (p & s & -> & H).
      exists (x :: p), s. auto.
    + intros [= <-]. exists [], (x :: url). rewrite E. split; [reflexivity|now left].
Qed.

Lemma search_none (r : regex) (p s : str) :
  search r (p ++ s) = None -> matches r None s = [].
Proof.
  induction p as [|x p IH]; cbn [app].
  - destruct s; cbn [search]; destruct (matches r None _); congruence.
  - cbn [search]. destruct (matches r None (x :: p ++ s)); [exact IH|discriminate].
Qed.

Lemma patterns_cores : patterns = map with_prefix cores.
Proof. reflexivity. Qed.

(** What a pattern finds is an identifier that follows a shape. *)
Lemma pattern_search_sound (pat : regex) (url : str) (m : mstate) :
  In pat patterns -> search pat url = Some m ->
  exists p sh t, shape sh /\ valid_id t /\ fst m = Some t /\
                 url = p ++ sh ++ t ++ snd m.
Proof.
  rewrite patterns_cores. intros Hp H.
  apply in_map_iff in Hp as (c & <- & Hc).
  apply search_some in H as (p & s & -> & H).
  apply in_with_prefix in H as (pre & s' & -> & H).
  apply (core_sound _ _ _ _ Hc) in H as (sh & t & Hs & Ht & Hg & ->).
  exists (p ++ pre), sh, t. rewrite <- app_assoc. auto.
Qed.

(** A shape followed by an identifier is found by its pattern. *)
Lemma pattern_search_complete (p sh t s : str) :
  shape sh -> valid_id t ->
  exists pat, In pat patterns /\ search pat (p ++ sh ++ t ++ s) <> None.
Proof.
  intros Hs Ht. destruct (core_complete sh Hs) as (c & Hc & H).
  exists (with_prefix c). split.
  - rewrite patterns_cores. now apply in_map.
  - intro E. apply search_none in E.
    specialize (H None t s Ht). apply with_prefix_keeps in H.
    rewrite E in H. destruct H.
Qed.

(** ** [extract_video_id] *)

(** The loop returns the capture of the first pattern, in the order of the
    list, that is found; here for patterns whose matches all fill group 1. *)
Lemma first_found_order (ps : list regex) (url : str) :
  (forall pat m, In pat ps -> search pat url = Some m -> group1 m <> None) ->
  match first_found ps url with
  | Some t =>
      exists i pat m,
        nth_error ps i = Some pat /\ search pat url = Some m /\
        group1 m = Some t /\
        forall j q, j < i -> nth_error ps j = Some q -> search q url = None
  | None => forall pat, In pat ps -> search pat url = None
  end.
Proof.
  induction ps as [|pat ps IH]; intro Hg; cbn [first_found].
  - intros pat [].
  - assert (IH' := IH (fun q m Hq => Hg q m (or_intror Hq))). clear IH.
    destruct (search pat url) as [m|] eqn:E.
    + destruct (group1 m) as [t|] eqn:G.
      * exists 0, pat, m. repeat split; try assumption. intros j q Hj. lia.
      * exfalso. apply (Hg pat m); [now left|assumption|assumption].
    + destruct (first_found ps url) as [t|].
      * destruct IH' as (i & q & m & Hn & Hs & Hm & Hlt).
        exists (S i), q, m. repeat split; try assumption.
        intros [|j] q' Hj Hq'; cbn [nth_error] in Hq'.
        -- now inversion Hq'; subst.
        -- apply (Hlt j); [lia|assumption].
      * intros q [<-|Hq]; [assumption | now apply IH'].
Qed.

Lemma patterns_fill_group (url : str) (pat : regex) (m : mstate) :
  In pat patterns -> search pat url = Some m -> group1 m <> None.
Proof.
  intros Hp Hs. destruct (pattern_search_sound _ _ _ Hp Hs) as (p & sh & t & _ & _ & Hg & _).
  unfold group1. congruence.
Qed.

Lemma extract_video_id_order (url : str) :
  match extract_video_id url with
  | Some t =>
      exists i pat m,
        nth_error patterns i = Some pat /\ search pat url = Some m /\
        group1 m = Some t /\
        forall j q, j < i -> nth_error patterns j = Some q -> search q url = None
  | None => forall pat, In pat patterns -> search pat url = None
  end.
Proof. apply first_found_order. apply patterns_fill_group. Qed.

(** What [extract_video_id] returns is an identifier of the string, standing
    right after one of the shapes. *)
Lemma extract_video_id_sound (url t : str) :
  extract_video_id url = Some t -> exists p sh s, occurrence url p sh t s.
Proof.
  intro H. pose proof (extract_video_id_order url) as O. rewrite H in O.
  destruct O as (i & pat & m & Hn & Hs & Hg & _).
  apply nth_error_In in Hn.
  destruct (pattern_search_sound _ _ _ Hn Hs) as (p & sh & t' & Hsh & Ht & Hg' & E).
  unfold group1 in Hg. assert (t' = t) by congruence. subst t'.
  exists p, sh, (snd m). unfold occurrence. auto.
Qed.

(** It finds an identifier wherever one stands after a shape. *)
Lemma extract_video_id_complete (url p sh t s : str) :
  occurrence url p sh t s -> extract_video_id url <> None.
Proof.
  intros (Hsh & Ht & ->) E.
  pose proof (extract_video_id_order (p ++ sh ++ t ++ s)) as O. rewrite E in O.
  destruct (pattern_search_complete p sh t s Hsh Ht) as (pat & Hp & Hs).
  apply Hs. now apply O.
Qed.

Lemma occurrence_read (url p sh t s : str) :
  occurrence url p sh t s ->
  firstn 11 (skipn (length (p ++ sh)) url) = t.
Proof.
  intros (_ & [Ht _] & ->).
  rewrite (app_assoc p sh), skipn_app, Nat.sub_diag, skipn_all. cbn [app skipn].
  rewrite <- Ht, firstn_app, Nat.sub_diag, firstn_all. cbn [firstn].
  apply app_nil_r.
Qed.

(** Two occurrences at the same place hold the same identifier. *)
Lemma occurrence_same_place (url p sh t s p' sh' t' s' : str) :
  occurrence url p sh t s -> occurrence url p' sh' t' s' ->
  length (p' ++ sh') = length (p ++ sh) -> t' = t.
Proof.
  intros H H' L. apply occurrence_read in H, H'. rewrite L in H'. congruence.
Qed.

(** ** Plain URLs *)

Lemma search_step (r : regex) (x : char) (s : str) :
  matches r None (x :: s) = [] -> search r (x :: s) = search r s.
Proof. intro H. cbn [search]. now rewrite H. Qed.

Lemma search_hit (r : regex) (s : str) (m : mstate) (l : list mstate) :
  matches r None s = m :: l -> search r s = Some m.
Proof. intro H. destruct s; cbn [search]; now rewrite H. Qed.

Lemma shape_has_slash (sh : str) : shape sh -> In 47%N sh.
Proof.
  intros [mid _| | |]; cbn; tauto.
Qed.

(** Text made of identifier characters holds no match. *)
Lemma search_id_chars (pat : regex) (w : str) :
  In pat patterns -> Forall (fun c => is_id_char c = true) w ->
  search pat w = None.
Proof.
  intros Hp Hw. destruct (search pat w) as [m|] eqn:E; [|reflexivity].
  destruct (pattern_search_sound _ _ _ Hp E) as (p & sh & t & Hsh & _ & _ & ->).
  apply shape_has_slash in Hsh.
  rewrite Forall_forall in Hw. specialize (Hw 47%N).
  assert (is_id_char 47%N = true) as C; [|discriminate C].
  apply Hw. apply in_or_app. right. apply in_or_app. now left.
Qed.

Lemma nil_by_members {A : Type} (l : list A) : (forall x, ~ In x l) -> l = [].
Proof. destruct l as [|x l]; [reflexivity|]. intro H. destruct (H x). now left. Qed.

(** With nothing but identifier characters after [v=], the query filler
    [(?:.*&)?] has nothing to take. *)
Lemma watch_core_plain (g : option str) (t extra : str) :
  valid_id t -> Forall (fun c => is_id_char c = true) extra ->
  matches watch_core g (u "youtube.com/watch?v=" ++ t ++ extra) = [(Some t, extra)].
Proof.
  intros Ht Hx. unfold watch_core.
  change (u "youtube.com/watch?v=") with (u "youtube.com/watch?" ++ u "v=").
  rewrite <- app_assoc, matches_cat, matches_lit_app. cbn [flat_map fst snd].
  rewrite app_nil_r, matches_cat, matches_opt.
  rewrite (nil_by_members (matches (Cat (Star Dot) (Lit (u "&"))) g _)).
  - cbn [app flat_map fst snd]. rewrite simple_core_app by assumption. reflexivity.
  - intros m H. apply in_matches_cat in H as (m1 & H1 & H2).
    rewrite matches_star in H1. apply in_star_dot in H1 as (_ & q & E & _).
    apply in_matches_lit in H2 as [_ E2]. rewrite E2 in E.
    assert (I : In 38%N (u "v=" ++ t ++ extra)).
    { rewrite E. apply in_or_app. right. now left. }
    cbn in I. destruct I as [I|[I|I]]; try discriminate I.
    apply in_app_or in I. destruct Ht as [_ Ht].
    rewrite Forall_forall in Ht, Hx.
    assert (is_id_char 38%N = true) as C
      by (destruct I as [I|I]; [apply (Ht _ I) | apply (Hx _ I)]).
    discriminate C.
Qed.

(** At an optional beginning followed by text that starts like the cores
    (with [y]), the pattern matches what its core matches there. *)
Lemma with_prefix_head (pre : str) (c : regex) (s : str) (m : mstate) (l : list mstate) :
  In pre url_prefixes -> matches c None (121%N :: s) = m :: l ->
  exists l', matches (with_prefix c) None (pre ++ 121%N :: s) = m :: l'.
Proof.
  intros Hpre H. unfold url_prefixes in Hpre.
  repeat (destruct Hpre as [<-|Hpre]); [..|destruct Hpre];
    unfold with_prefix, scheme, www;
    rewrite !matches_cat, !matches_opt; cbn; rewrite H; eexists; reflexivity.
Qed.

(** A pattern listed before the one of the shape finds nothing in a plain
    URL of that shape. *)
Lemma plain_url_miss (pre lit : str) (c : regex) (w : str) :
  In pre url_prefixes ->
  In (lit, c)
     [ (u "youtu.be/", watch_core); (u "youtube.com/embed/", watch_core);
       (u "youtube.com/v/", watch_core); (u "youtube.com/embed/", short_core);
       (u "youtube.com/v/", short_core); (u "youtube.com/v/", embed_core) ] ->
  Forall (fun c => is_id_char c = true) w ->
  search (with_prefix c) (pre ++ lit ++ w) = None.
Proof.
  intros Hpre Hlc Hw. unfold url_prefixes in Hpre.
  assert (P : forall c', In c' cores -> search (with_prefix c') w = None).
  { intros c' Hc'. apply search_id_chars; [|assumption].
    rewrite patterns_cores. now apply in_map. }
  repeat (destruct Hpre as [<-|Hpre]); [..|destruct Hpre];
    repeat (destruct Hlc as [[= <- <-]|Hlc]); try destruct Hlc;
    cbn -[search with_prefix];
    repeat (rewrite search_step by reflexivity);
    apply P; cbn; tauto.
Qed.

(** The pattern of a shape finds the identifier of a plain URL of that shape
    at once. *)
Lemma plain_url_hit (pre lit : str) (c : regex) (t extra : str) :
  In pre url_prefixes ->
  In (lit, c)
     [ (u "youtube.com/watch?v=", watch_core); (u "youtu.be/", short_core);
       (u "youtube.com/embed/", embed_core); (u "youtube.com/v/", v_core) ] ->
  valid_id t -> Forall (fun c => is_id_char c = true) extra ->
  search (with_prefix c) (pre ++ lit ++ t ++ extra) = Some (Some t, extra).
Proof.
  intros Hpre Hlc Ht Hx.
  assert (M : matches c None (lit ++ t ++ extra) = [(Some t, extra)]).
  { repeat (destruct Hlc as [[= <- <-]|Hlc]); try destruct Hlc.
    - now apply watch_core_plain.
    - now apply simple_core_app.
    - now apply simple_core_app.
    - now apply simple_core_app. }
  assert (Y : exists s, lit ++ t ++ extra = 121%N :: s).
  { repeat (destruct Hlc as [[= <- <-]|Hlc]); try destruct Hlc;
      eexists; reflexivity. }
  destruct Y as (s & Y). rewrite Y in *.
  destruct (with_prefix_head pre c s _ _ Hpre M) as (l' & H).
  now apply search_hit with (l := l').
Qed.

(** A plain URL, with any number of further identifier characters after the
    eleventh, gives its first eleven. *)
Lemma plain_url (pre lit t extra : str) :
  In pre url_prefixes -> In lit plain_shapes ->
  valid_id t -> Forall (fun c => is_id_char c = true) extra ->
  extract_video_id (pre ++ lit ++ t ++ extra) = Some t.
Proof.
  intros Hpre Hlit Ht Hx.
  assert (Hw : Forall (fun c => is_id_char c = true) (t ++ extra)).
  { apply Forall_app. split; [apply Ht|assumption]. }
  unfold extract_video_id, patterns. unfold plain_shapes in Hlit.
  destruct Hlit as [<-|[<-|[<-|[<-|[]]]]]; cbn [first_found];
    repeat (rewrite (plain_url_miss pre _ _ (t ++ extra) Hpre) by (cbn; tauto || assumption));
    rewrite (plain_url_hit pre _ _ t extra Hpre) by (cbn; tauto || assumption);
    reflexivity.
Qed.

(** C1, as the code has it. [extract_video_id] never raises.  It returns
    [None] exactly for the strings in which no shape is followed by an
    identifier.  For any other string it returns the capture of the first
    pattern, in the order of the list, that is found: an identifier that
    stands in the string right after one of the shapes, and thus the
    identifier of the string when all the occurrences in it are at one
    place. *)
Theorem extract_video_id_spec (url : str) :
  match extract_video_id url with
  | Some t =>
      valid_id t
      /\ (exists p sh s, occurrence url p sh t s)
      /\ (exists i pat m,
            nth_error patterns i = Some pat /\ search pat url = Some m /\
            group1 m = Some t /\
            forall j q, j < i -> nth_error patterns j = Some q ->
                        search q url = None)
      /\ (forall p0 sh0 t0 s0,
            occurrence url p0 sh0 t0 s0 ->
            (forall p' sh' t' s', occurrence url p' sh' t' s' ->
                                  length (p' ++ sh') = length (p0 ++ sh0)) ->
            t = t0)
  | None => forall p sh t s, ~ occurrence url p sh t s
  end.
Proof.
  pose proof (extract_video_id_order url) as O.
  destruct (extract_video_id url) as [t|] eqn:E.
  - destruct (extract_video_id_sound url t E) as (p & sh & s & Hocc).
    split; [apply Hocc|]. split; [now exists p, sh, s|]. split; [exact O|].
    intros p0 sh0 t0 s0 H0 Hsole.
    apply (occurrence_same_place url p0 sh0 t0 s0 p sh t s H0 Hocc).
    now apply (Hsole p sh t s).
  - intros p sh t s Hocc.
    now apply (extract_video_id_complete url p sh t s Hocc).
Qed.

(** C1 as it is stated fails: the text below holds the [youtu.be/] shape with
    the identifier [AAAAAAAAAAA], and [extract_video_id] returns another one,
    since the [watch] pattern is tried first. *)
Lemma extract_video_id_other_token :
  occurrence (u "youtu.be/AAAAAAAAAAA youtube.com/watch?v=BBBBBBBBBBB")
             [] (u "youtu.be/") (u "AAAAAAAAAAA")
             (u " youtube.com/watch?v=BBBBBBBBBBB")
  /\ extract_video_id (u "youtu.be/AAAAAAAAAAA youtube.com/watch?v=BBBBBBBBBBB")
     = Some (u "BBBBBBBBBBB").
Proof.
  split; [|vm_compute; reflexivity].
  split; [constructor|]. split; [|reflexivity].
  split; [reflexivity|]. repeat constructor.
Qed.

(** C10. The patterns are found anywhere: if, somewhere in the string, a
    shape is followed by eleven identifier characters, whatever stands before
    and after, [extract_video_id] returns an identifier of eleven characters
    that stands in the string right after a shape.  In a plain URL (an
    optional scheme and [www.], a shape, the identifier) that goes on with
    further identifier characters, it is the first eleven that are
    returned. *)
Theorem extract_video_id_unanchored (p sh t s : str) :
  shape sh -> valid_id t ->
  exists t',
    extract_video_id (p ++ sh ++ t ++ s) = Some t'
    /\ valid_id t'
    /\ (exists p' sh' s', occurrence (p ++ sh ++ t ++ s) p' sh' t' s')
    /\ (In p url_prefixes -> In sh plain_shapes ->
        Forall (fun c => is_id_char c = true) s -> t' = t).
Proof.
  intros Hsh Ht.
  assert (Hocc : occurrence (p ++ sh ++ t ++ s) p sh t s) by (repeat split; auto; apply Ht).
  destruct (extract_video_id (p ++ sh ++ t ++ s)) as [t'|] eqn:E.
  - exists t'. split; [reflexivity|].
    destruct (extract_video_id_sound _ t' E) as (p' & sh' & s' & Hocc').
    split; [apply Hocc'|]. split; [now exists p', sh', s'|].
    intros Hp Hplain Hs.
    rewrite (plain_url p sh t s Hp Hplain Ht Hs) in E. congruence.
  - exfalso. now apply (extract_video_id_complete _ p sh t s Hocc).
Qed.

Lemma extract_video_id_unanchored_witness :
  shape (u "youtu.be/") /\ valid_id (u "ABCDEFGHIJK")
  /\ extract_video_id (u "https://" ++ u "youtu.be/" ++ u "ABCDEFGHIJK" ++ u "L")
     = Some (u "ABCDEFGHIJK").
Proof.
  assert (Hsh : shape (u "youtu.be/")) by constructor.
  assert (Ht : valid_id (u "ABCDEFGHIJK")).
  { split; [reflexivity|]. repeat constructor. }
  split; [exact Hsh|]. split; [exact Ht|].
  destruct (extract_video_id_unanchored (u "https://") (u "youtu.be/")
              (u "ABCDEFGHIJK") (u "L") Hsh Ht) as (t' & E & _ & _ & X).
  rewrite E. f_equal. apply X.
  - cbn. tauto.
  - cbn. tauto.
  - repeat constructor.
Defined.

(** ** The transcript list *)

Lemma str_eqb_eq (a b : str) : str_eqb a b = true <-> a = b.
Proof.
  revert b. induction a as [|x a IH]; intros [|y b]; cbn [str_eqb];
    try (split; [discriminate|discriminate]); [tauto|].
  rewrite andb_true_iff, N.eqb_eq, IH. split.
  - intros [-> ->]. reflexivity.
  - intros [= -> ->]. auto.
Qed.

Lemma dict_get_some (code : str) (d : list transcript) (t : transcript) :
  dict_get code d = Some t -> In t d /\ language_code t = code.
Proof.
  unfold dict_get. intro H. apply find_some in H as [H1 H2].
  split; [assumption|]. now apply str_eqb_eq.
Qed.

Lemma dict_get_none (code : str) (d : list transcript) (t : transcript) :
  dict_get code d = None -> In t d -> language_code t <> code.
Proof.
  unfold dict_get. intros H Hin E.
  pose proof (find_none _ _ H t Hin) as F. cbn beta in F.
  apply str_eqb_eq in E. congruence.
Qed.

(** A code that neither dictionary holds is not offered. *)
Lemma not_offered (tl : transcript_list) (code : str) :
  dict_get code (manually_created_transcripts tl) = None ->
  dict_get code (generated_transcripts tl) = None ->
  ~ offers tl code.
Proof.
  intros H1 H2 (t & Hin & E). unfold iter_transcripts in Hin.
  apply in_app_or in Hin as [Hin|Hin].
  - exact (dict_get_none _ _ t H1 Hin E).
  - exact (dict_get_none _ _ t H2 Hin E).
Qed.

Lemma offered (tl : transcript_list) (code : str) (t : transcript) :
  dict_get code (manually_created_transcripts tl) = Some t
  \/ dict_get code (generated_transcripts tl) = Some t ->
  In t (iter_transcripts tl) /\ language_code t = code.
Proof.
  unfold iter_transcripts.
  intros [H|H]; apply dict_get_some in H as [H1 H2]; split;
    try assumption; apply in_or_app; auto.
Qed.

(** ** [get_transcript] *)

(** What the comprehension gives: nothing to subscript for a track without
    segments, the [TypeError] of the first subscript otherwise. *)
Lemma texts_of_outcome (transcript_data : list entry) :
  texts_of transcript_data
  = match transcript_data with
    | [] => Return []
    | _ :: _ => Raise not_subscriptable
    end.
Proof. destruct transcript_data; reflexivity. Qed.

(** What [get_transcript] does once the tracks are listed and one is
    selected: it fetches that track, once, and subscripts its segments. *)
Lemma get_transcript_selected (api : service) (video_id : str)
    (tl : transcript_list) (t : transcript) :
  api video_id = Return tl ->
  select_transcript video_id tl = ([], Return t) ->
  get_transcript api video_id
  = ([call_list video_id; call_fetch (language_code t)],
     match fetch_result t with
     | Return [] => Return []
     | Return (_ :: _) => Raise not_subscriptable
     | Raise e => Raise (surfaced e)
     end).
Proof.
  intros Ha Hs. unfold get_transcript, api_list, fetch.
  rewrite Ha. cbn [bind]. rewrite Hs. cbn [bind app].
  destruct (fetch_result t) as [[|x d]|e]; cbn [bind ret try_except app].
  - reflexivity.
  - reflexivity.
  - unfold surfaced, user_message.
    destruct e as [[] msg]; reflexivity.
Qed.

Lemma get_transcript_selected_calls (api : service) (video_id : str)
    (tl : transcript_list) (t : transcript) :
  api video_id = Return tl ->
  select_transcript video_id tl = ([], Return t) ->
  fst (get_transcript api video_id)
  = [call_list video_id; call_fetch (language_code t)].
Proof.
  intros Ha Hs. now rewrite (get_transcript_selected api video_id tl t Ha Hs).
Qed.

Lemma get_transcript_list_fails (api : service) (video_id : str) (e : exn) :
  api video_id = Raise e ->
  get_transcript api video_id = ([call_list video_id], Raise (surfaced e)).
Proof.
  intro Ha. unfold get_transcript, api_list. rewrite Ha.
  cbn [bind try_except]. unfold surfaced, user_message.
  destruct e as [[] msg]; reflexivity.
Qed.

Lemma get_transcript_no_track (api : service) (video_id : str)
    (tl : transcript_list) (e : exn) :
  api video_id = Return tl ->
  select_transcript video_id tl = ([], Raise e) ->
  get_transcript api video_id = ([call_list video_id], Raise (surfaced e)).
Proof.
  intros Ha Hs. unfold get_transcript, api_list.
  rewrite Ha. cbn [bind]. rewrite Hs. cbn [bind try_except app].
  unfold surfaced, user_message.
  destruct e as [[] msg]; reflexivity.
Qed.

Lemma select_transcript_no_call (video_id : str) (tl : transcript_list) :
  fst (select_transcript video_id tl) = [].
Proof.
  unfold select_transcript.
  destruct (find_transcript tl [u "it"; u "en"]) as [t|[[] msg]]; try reflexivity.
  cbn [try_except catch exn_cls].
  destruct (next (iter_transcripts tl)) as [t|[[] msg']]; reflexivity.
Qed.

(** C4. Once the tracks of the video are listed, [get_transcript] selects: a
    track tagged [it] when the list offers one, also when it offers [en] as
    well; else a track tagged [en] when it offers one; else the first track
    in the iteration order of the list; and that track is the one it asks
    the service to fetch.  With no track at all it fails with the message
    "Nessuna trascrizione trovata per questo video.", without fetching
    anything. *)
Theorem track_selection (api : service) (video_id : str) (tl : transcript_list) :
  api video_id = Return tl ->
  match snd (select_transcript video_id tl) with
  | Return t =>
      In t (iter_transcripts tl)
      /\ (offers tl (u "it") -> language_code t = u "it")
      /\ (~ offers tl (u "it") -> offers tl (u "en") -> language_code t = u "en")
      /\ (~ offers tl (u "it") -> ~ offers tl (u "en") ->
          hd_error (iter_transcripts tl) = Some t)
      /\ fst (get_transcript api video_id)
         = [call_list video_id; call_fetch (language_code t)]
  | Raise e =>
      iter_transcripts tl = []
      /\ get_transcript api video_id
         = ([call_list video_id], Raise (Exn PlainException msg_not_found))
  end.
Proof.
  intro Ha.
  pose proof (select_transcript_no_call video_id tl) as Hc.
  pose proof (get_transcript_selected_calls api video_id tl) as Hsel.
  pose proof (get_transcript_no_track api video_id tl) as Hno.
  destruct (select_transcript video_id tl) as [calls r] eqn:Hs.
  cbn [fst snd] in *. subst calls.
  revert Hs. unfold select_transcript. cbn [find_transcript].
  destruct (dict_get (u "it") (manually_created_transcripts tl)) as [t|] eqn:I1;
    [|destruct (dict_get (u "it") (generated_transcripts tl)) as [t|] eqn:I2;
      [|destruct (dict_get (u "en") (manually_created_transcripts tl)) as [t|] eqn:E1;
        [|destruct (dict_get (u "en") (generated_transcripts tl)) as [t|] eqn:E2]]];
    cbn [try_except catch exn_cls].
  - intros [= <-]. destruct (offered tl (u "it") t (or_introl I1)) as [Hin Hl].
    repeat split; auto.
    + intros N. exfalso. apply N. now exists t.
    + intros N. exfalso. apply N. now exists t.
  - intros [= <-]. destruct (offered tl (u "it") t (or_intror I2)) as [Hin Hl].
    repeat split; auto.
    + intros N. exfalso. apply N. now exists t.
    + intros N. exfalso. apply N. now exists t.
  - intros [= <-]. destruct (offered tl (u "en") t (or_introl E1)) as [Hin Hl].
    pose proof (not_offered tl (u "it") I1 I2) as N.
    repeat split; auto.
    + intro O. now destruct (N O).
    + intros _ N'. exfalso. apply N'. now exists t.
  - intros [= <-]. destruct (offered tl (u "en") t (or_intror E2)) as [Hin Hl].
    pose proof (not_offered tl (u "it") I1 I2) as N.
    repeat split; auto.
    + intro O. now destruct (N O).
    + intros _ N'. exfalso. apply N'. now exists t.
  - pose proof (not_offered tl (u "it") I1 I2) as N.
    pose proof (not_offered tl (u "en") E1 E2) as N'.
    destruct (iter_transcripts tl) as [|t0 rest] eqn:It;
      cbn [next try_except catch exn_cls raise app].
    + intros [= <-]. split; [reflexivity|].
      now rewrite (Hno _ Ha eq_refl).
    + intros [= <-]. repeat split; auto.
      * now left.
      * intro O. now destruct (N O).
      * intros _ O. now destruct (N' O).
Qed.

Lemma track_selection_witness :
  (fun _ : str => Return english_and_italian) (u "ABCDEFGHIJK")
  = Return english_and_italian
  /\ exists t, snd (select_transcript (u "ABCDEFGHIJK") english_and_italian) = Return t
               /\ language_code t = u "it".
Proof.
  split; [reflexivity|].
  pose proof (track_selection (fun _ => Return english_and_italian)
                (u "ABCDEFGHIJK") english_and_italian eq_refl) as H.
  destruct (snd (select_transcript (u "ABCDEFGHIJK") english_and_italian))
    as [t|e] eqn:E.
  - exists t. split; [reflexivity|]. apply H.
    exists (Transcript (u "it") (Return [Entry (u "Ciao") 0 1])).
    split; [cbn; tauto|reflexivity].
  - vm_compute in E. discriminate E.
Defined.

Lemma join_cons (sep x : str) (rest : list str) :
  join sep (x :: rest) = x ++ flat_map (fun y => sep ++ y) rest.
Proof.
  revert x. induction rest as [|y rest IH]; intro x.
  - cbn. now rewrite app_nil_r.
  - cbn [join flat_map] in *. now rewrite IH, <- app_assoc.
Qed.

Lemma join_length (sep : str) (items : list str) :
  length (join sep items)
  = list_sum (map (@length char) items) + (length items - 1) * length sep.
Proof.
  destruct items as [|x rest]; [reflexivity|].
  rewrite join_cons, length_app. cbn [map length].
  change (list_sum (length x :: map (@length char) rest))
    with (length x + list_sum (map (@length char) rest)).
  replace (S (length rest) - 1) with (length rest) by lia.
  assert (E : length (flat_map (fun y => sep ++ y) rest)
              = list_sum (map (@length char) rest) + length rest * length sep).
  { induction rest as [|y rest IH]; [reflexivity|].
    cbn [flat_map map length]. rewrite !length_app, IH.
    change (list_sum (length y :: map (@length char) rest))
      with (length y + list_sum (map (@length char) rest)).
    lia. }
  rewrite E. lia.
Qed.

(** After a fetch that gives segments, the join is not reached: the first
    subscript raises, no clause of [get_transcript] catches a [TypeError],
    and it leaves the function. *)
Lemma get_transcript_not_subscriptable (api : service) (video_id : str)
    (tl : transcript_list) (t : transcript) (first : entry) (rest : list entry) :
  api video_id = Return tl ->
  snd (select_transcript video_id tl) = Return t ->
  fetch_result t = Return (first :: rest) ->
  get_transcript api video_id
  = ([call_list video_id; call_fetch (language_code t)], Raise not_subscriptable).
Proof.
  intros Ha Hs Hf.
  assert (Hsel : select_transcript video_id tl = ([], Return t)).
  { rewrite <- Hs, <- (select_transcript_no_call video_id tl).
    now destruct (select_transcript video_id tl). }
  now rewrite (get_transcript_selected api video_id tl t Ha Hsel), Hf.
Qed.

(** C6 fails on the code.  For the video whose English track has the
    segments [Hello] and [world], [get_transcript] does not return
    ["Hello world"]: subscripting the first segment raises [TypeError], which
    leaves [get_transcript]; [main] shows it as an error, without a card. *)
Theorem transcript_concatenation_not_reached :
  get_transcript english_only (u "ABCDEFGHIJK")
  = ([call_list (u "ABCDEFGHIJK"); call_fetch (u "en")], Raise not_subscriptable)
  /\ exn_str not_subscriptable
     = u "'FetchedTranscriptSnippet' object is not subscriptable"
  /\ existsb shows_card
       (snd (main plays_http english_only (u "https://youtu.be/ABCDEFGHIJK") true))
     = false.
Proof.
  split; [|split].
  - apply (get_transcript_not_subscriptable english_only (u "ABCDEFGHIJK")
             (TranscriptList [] [Transcript (u "en") (Return hello_world)])
             (Transcript (u "en") (Return hello_world))
             (Entry (u "Hello") 0 1) [Entry (u "world") 1 1]); reflexivity.
  - reflexivity.
  - vm_compute. reflexivity.
Qed.

(** ** [main] *)

Lemma extract_video_id_truthy (url video_id : str) :
  extract_video_id url = Some video_id ->
  url <> [] /\ truthy (Some video_id) = true.
Proof.
  intro H. split.
  - intros ->. vm_compute in H. discriminate H.
  - destruct (extract_video_id_sound url video_id H) as (p & sh & s & _ & [L _] & _).
    destruct video_id; [discriminate L|reflexivity].
Qed.

(** A submission with a URL that holds an identifier and that [st.video]
    accepts: what is shown depends on the retrieval only. *)
Lemma main_after_extraction (video : player) (api : service)
    (youtube_url video_id : str) :
  extract_video_id youtube_url = Some video_id ->
  video youtube_url = Return tt ->
  main video api youtube_url true
  = match get_transcript api video_id with
    | (calls, Raise e) => (calls, shown_on_failure youtube_url video_id e)
    | (calls, Return transcript_text) =>
        (calls,
         (shown_before_retrieval youtube_url video_id ++
          [ st_success ([0x2705%N] ++ u " Trascrizione estratta! (" ++
                        str_of_nat (length transcript_text) ++ u " caratteri)");
            st_spinner ([0x1F916%N] ++ u " Generazione della scheda di lezione in corso...");
            st_success ([0x2705%N] ++ u " Scheda di lezione generata con successo!");
            st_markdown (u "---");
            st_markdown (u "## " ++ [0x1F4D6%N] ++ u " Scheda di Lezione Generata");
            st_markdown (generate_lesson_from_text transcript_text);
            st_download_button
              ([0x2B07%N; 0xFE0F%N] ++ u " Scarica Scheda di Lezione (Markdown)")
              (generate_lesson_from_text transcript_text)
              (u "lezione_" ++ video_id ++ u ".md")
              (u "text/markdown") ]) ++ footer)
    end.
Proof.
  intros H Hv. destruct (extract_video_id_truthy youtube_url video_id H) as [Hu Ht].
  unfold main, on_generate. destruct youtube_url as [|c url]; [now destruct Hu|].
  rewrite H, Ht, Hv. cbn [negb].
  destruct (get_transcript api video_id) as [calls [text|e]]; reflexivity.
Qed.

(** A submission with a URL that holds an identifier and that [st.video]
    does not accept: the run ends there, in the exception of [st.video]. *)
Lemma main_video_fails (video : player) (api : service)
    (youtube_url video_id : str) (e : exn) :
  extract_video_id youtube_url = Some video_id ->
  video youtube_url = Raise e ->
  main video api youtube_url true
  = ([],
     [ st_success ([0x2705%N] ++ u " Video ID estratto: `" ++ video_id ++ u "`");
       st_expander ([0x1F3A5%N] ++ u " Anteprima Video");
       uncaught e ]).
Proof.
  intros H Hv. destruct (extract_video_id_truthy youtube_url video_id H) as [Hu Ht].
  unfold main, on_generate. destruct youtube_url as [|c url]; [now destruct Hu|].
  rewrite H, Ht, Hv. reflexivity.
Qed.

(** The retrieval asks the service for the tracks once and fetches one track
    at most; a failure of the service, or the lack of any track, leaves it
    under its message or as it came. *)
Lemma get_transcript_by_failure (api : service) (video_id : str) :
  exists calls,
    single_attempt video_id calls /\
    get_transcript api video_id
    = (calls,
       match retrieval_failure api video_id with
       | Some e => Raise (surfaced e)
       | None =>
           match api video_id with
           | Return tl =>
               match snd (select_transcript video_id tl) with
               | Return t =>
                   match fetch_result t with
                   | Return [] => Return []
                   | Return (_ :: _) => Raise not_subscriptable
                   | Raise e => Raise e
                   end
               | Raise e => Raise e
               end
           | Raise e => Raise e
           end
       end).
Proof.
  unfold retrieval_failure.
  destruct (api video_id) as [tl|e] eqn:Ha.
  - pose proof (select_transcript_no_call video_id tl) as Hc.
    destruct (select_transcript video_id tl) as [calls [t|e]] eqn:Hs;
      cbn [fst snd] in *; subst calls.
    + rewrite (get_transcript_selected api video_id tl t Ha Hs).
      exists [call_list video_id; call_fetch (language_code t)].
      split; [right; now exists (language_code t)|].
      destruct (fetch_result t) as [[|x d]|e]; reflexivity.
    + rewrite (get_transcript_no_track api video_id tl e Ha Hs).
      exists [call_list video_id]. split; [now left|reflexivity].
  - rewrite (get_transcript_list_fails api video_id e Ha).
    exists [call_list video_id]. split; [now left|reflexivity].
Qed.

(** C5. Whichever of the three failures the retrieval runs into (transcripts
    disabled, no transcript found, video unavailable), [get_transcript]
    catches it and raises an exception that carries the message of that
    failure, the three messages being different; [main], once [st.video] has
    taken the URL, shows that message as an error, then the list of possible
    causes, and returns.  The service has been asked for the tracks once and
    for one track at most: nothing is tried again. *)
Theorem retrieval_failure_is_terminal (video : player) (api : service)
    (youtube_url video_id : str) (e : exn) (msg : str) :
  extract_video_id youtube_url = Some video_id ->
  video youtube_url = Return tt ->
  retrieval_failure api video_id = Some e ->
  user_message (exn_cls e) = Some msg ->
  (exists calls,
     single_attempt video_id calls
     /\ get_transcript api video_id = (calls, Raise (Exn PlainException msg))
     /\ main video api youtube_url true
        = (calls,
           shown_before_retrieval youtube_url video_id
           ++ [ st_error ([0x274C%N] ++ u " Errore: " ++ msg);
                st_info possible_causes ]))
  /\ msg_disabled <> msg_not_found
  /\ msg_disabled <> msg_unavailable
  /\ msg_not_found <> msg_unavailable.
Proof.
  intros Hx Hv Hf Hm. split; [|repeat split; discriminate].
  destruct (get_transcript_by_failure api video_id) as (calls & Hc & Hg).
  rewrite Hf in Hg. unfold surfaced in Hg. rewrite Hm in Hg.
  exists calls. split; [assumption|]. split; [assumption|].
  rewrite (main_after_extraction video api youtube_url video_id Hx Hv), Hg.
  reflexivity.
Qed.

Lemma retrieval_failure_is_terminal_witness :
  extract_video_id (u "https://youtu.be/ABCDEFGHIJK") = Some (u "ABCDEFGHIJK")
  /\ plays_http (u "https://youtu.be/ABCDEFGHIJK") = Return tt
  /\ retrieval_failure transcripts_disabled (u "ABCDEFGHIJK")
     = Some (Exn TranscriptsDisabled (u "disabled"))
  /\ exists calls,
       get_transcript transcripts_disabled (u "ABCDEFGHIJK")
       = (calls, Raise (Exn PlainException msg_disabled)).
Proof.
  assert (Hx : extract_video_id (u "https://youtu.be/ABCDEFGHIJK")
               = Some (u "ABCDEFGHIJK")) by (vm_compute; reflexivity).
  assert (Hv : plays_http (u "https://youtu.be/ABCDEFGHIJK") = Return tt)
    by reflexivity.
  split; [exact Hx|]. split; [exact Hv|]. split; [reflexivity|].
  destruct (retrieval_failure_is_terminal plays_http transcripts_disabled
              (u "https://youtu.be/ABCDEFGHIJK") (u "ABCDEFGHIJK")
              (Exn TranscriptsDisabled (u "disabled")) msg_disabled
              Hx Hv eq_refl eq_refl) as [(calls & _ & Hg & _) _].
  now exists calls.
Defined.

(** C9, as the code has it. A submission whose URL is not empty and holds no
    identifier shows the error "URL non valido ..." and, with it, a hint that
    lists three formats: the [watch?v=], the [youtu.be/] and the [embed/]
    one.  The [v/] format, which [extract_video_id] accepts, is not in the
    hint. *)
Theorem invalid_url_hint (video : player) (api : service) (youtube_url : str) :
  youtube_url <> [] ->
  extract_video_id youtube_url = None ->
  main video api youtube_url true
  = ([], [st_error msg_invalid_url; st_info supported_formats])
  /\ contains (u "youtube.com/watch?v=") supported_formats = true
  /\ contains (u "youtu.be/") supported_formats = true
  /\ contains (u "youtube.com/embed/") supported_formats = true
  /\ contains (u "/v/") supported_formats = false.
Proof.
  intros Hu Hx. split; [|repeat split; vm_compute; reflexivity].
  unfold main, on_generate. destruct youtube_url as [|c url]; [now destruct Hu|].
  rewrite Hx. reflexivity.
Qed.

Lemma invalid_url_hint_witness :
  u "foo" <> [] /\ extract_video_id (u "foo") = None
  /\ main plays_http english_only (u "foo") true
     = ([], [st_error msg_invalid_url; st_info supported_formats]).
Proof.
  assert (Hu : u "foo" <> []) by discriminate.
  assert (Hx : extract_video_id (u "foo") = None) by (vm_compute; reflexivity).
  split; [exact Hu|]. split; [exact Hx|].
  apply (invalid_url_hint plays_http english_only (u "foo") Hu Hx).
Defined.

(** C9 as it is stated fails: for the unparseable ["foo"] the hint shown does
    not list the [v/] shape, the fourth that [extract_video_id] supports. *)
Lemma invalid_url_hint_three_shapes :
  extract_video_id (u "foo") = None
  /\ main plays_http english_only (u "foo") true
     = ([], [st_error msg_invalid_url; st_info supported_formats])
  /\ map (fun sh => contains sh supported_formats) plain_shapes
     = [true; true; true; false]
  /\ contains (u "v/") supported_formats = false.
Proof. repeat split; vm_compute; reflexivity. Qed.

(** An empty URL field is answered before any parsing, and without the hint. *)
Example empty_url_no_hint (video : player) (api : service) :
  main video api [] true = ([], [st_error msg_empty_url]).
Proof. reflexivity. Qed.

(** The end-to-end example of the specification, as the code runs it: the
    identifier is found, the retrieval ends in the [TypeError] of the first
    subscript, and the card, had the text ["Hello world"] reached it, would
    hold its two words and its escape. *)
Example end_to_end :
  extract_video_id (u "https://www.youtube.com/watch?v=ABCDEFGHIJK&t=5s")
  = Some (u "ABCDEFGHIJK")
  /\ get_transcript english_only (u "ABCDEFGHIJK")
     = ([call_list (u "ABCDEFGHIJK"); call_fetch (u "en")], Raise not_subscriptable)
  /\ contains (u "**Lunghezza trascrizione**: 2 parole")
              (generate_lesson_from_text (u "Hello world")) = true
  /\ contains (u "</summary>" ++ nl ++ nl ++ u "Hello world" ++ nl ++ nl ++ u "</details>")
              (generate_lesson_from_text (u "Hello world")) = true.
Proof. repeat split; vm_compute; reflexivity. Qed.

(** * Further properties *)

(** ** Escaping *)

Lemma is_special_backslash : is_special backslash = true.
Proof. reflexivity. Qed.

Lemma not_special_not_backslash (c : char) :
  is_special c = false -> N.eqb c backslash = false.
Proof.
  intro H. destruct (N.eqb_spec c backslash) as [->|]; [|reflexivity].
  rewrite is_special_backslash in H. discriminate H.
Qed.

(** X1. Escaping loses nothing: reading the backslashes back gives the text
    again, so that two texts with the same escape are the same text. *)
Theorem unescape_escape_markdown :
  (forall text, unescape (escape_markdown text) = text)
  /\ (forall a b, escape_markdown a = escape_markdown b -> a = b).
Proof.
  assert (R : forall text, unescape (escape_markdown text) = text).
  { intro text. rewrite escape_markdown_flat_map.
    induction text as [|c text IH]; [reflexivity|].
    cbn [flat_map]. unfold esc_char at 1.
    destruct (is_special c) eqn:E; cbn [app unescape].
    - rewrite N.eqb_refl. now rewrite IH.
    - rewrite (not_special_not_backslash c E). now rewrite IH. }
  split; [exact R|].
  intros a b H. rewrite <- (R a), <- (R b). now rewrite H.
Qed.

(** X2. In an escaped text no special character stands without a backslash
    of its own before it. *)
Theorem escape_markdown_well_escaped (text : str) :
  well_escaped (escape_markdown text) = true.
Proof.
  rewrite escape_markdown_flat_map.
  induction text as [|c text IH]; [reflexivity|].
  cbn [flat_map]. unfold esc_char at 1.
  destruct (is_special c) eqn:E; cbn [app well_escaped].
  - now rewrite N.eqb_refl, E, IH.
  - now rewrite (not_special_not_backslash c E), E, IH.
Qed.

(** X3. The escape of a text is longer than the text by the number of its
    special characters: between once and twice its length, and the text
    itself exactly when it holds no special character. *)
Theorem escape_markdown_growth (text : str) :
  length (escape_markdown text) = length text + length (filter is_special text)
  /\ length text <= length (escape_markdown text) <= 2 * length text
  /\ (escape_markdown text = text <-> filter is_special text = []).
Proof.
  pose proof (escape_markdown_length text) as L.
  pose proof (filter_length_le is_special text) as F.
  split; [exact L|]. split; [lia|]. split.
  - intro H. rewrite H in L.
    destruct (filter is_special text); [reflexivity|]. cbn [length] in L. lia.
  - apply escape_markdown_plain.
Qed.

(** ** The preview and the word count *)

(** X4. The preview never has more than 503 characters (500 of the
    transcript and the ellipsis), it starts with the first 500 characters of
    the transcript, and once escaped it has 1006 characters at most. *)
Theorem preview_bounds (transcript_text : str) :
  length (preview transcript_text)
  = (if length transcript_text <=? 500 then length transcript_text else 503)
  /\ length (preview transcript_text) <= 503
  /\ firstn 500 (preview transcript_text) = firstn 500 transcript_text
  /\ length (escape_markdown (preview transcript_text)) <= 1006.
Proof.
  assert (B : length (preview transcript_text)
              = (if length transcript_text <=? 500
                 then length transcript_text else 503)).
  { unfold preview. destruct (500 <? length transcript_text) eqn:E.
    - apply Nat.ltb_lt in E.
      rewrite length_app, length_firstn.
      change (length (u "...")) with 3.
      destruct (Nat.leb_spec (length transcript_text) 500); lia.
    - apply Nat.ltb_ge in E.
      destruct (Nat.leb_spec (length transcript_text) 500); lia. }
  assert (B' : length (preview transcript_text) <= 503).
  { rewrite B. destruct (Nat.leb_spec (length transcript_text) 500); lia. }
  split; [exact B|]. split; [exact B'|]. split.
  - unfold preview. destruct (500 <? length transcript_text) eqn:E;
      [|reflexivity].
    apply Nat.ltb_lt in E.
    rewrite firstn_app, firstn_firstn, length_firstn.
    replace (500 - Nat.min 500 (length transcript_text)) with 0 by lia.
    cbn [firstn]. rewrite app_nil_r. rewrite Nat.min_id. reflexivity.
  - pose proof (escape_markdown_length (preview transcript_text)) as L.
    pose proof (filter_length_le is_special (preview transcript_text)) as F.
    lia.
Qed.

Lemma word_starts_app_space (after_space : bool) (a b : str) :
  word_starts after_space (a ++ 32%N :: b)
  = word_starts after_space a + word_starts true b.
Proof.
  revert after_space. induction a as [|c a IH]; intro after_space.
  - cbn [app word_starts]. change (is_space 32%N) with true.
    rewrite andb_false_r. reflexivity.
  - cbn [app word_starts]. rewrite IH. lia.
Qed.

(** X5. The word count of the transcript that [get_transcript] joins is the
    sum of the word counts of the texts joined: the space put between two
    texts never glues two words together nor cuts one. *)
Theorem word_count_join (texts : list str) :
  word_count (join (u " ") texts) = list_sum (map word_count texts).
Proof.
  destruct texts as [|x rest]; [reflexivity|].
  rewrite join_cons, !word_count_token_count. unfold token_count.
  revert x. induction rest as [|y rest IH]; intro x.
  - cbn [flat_map map]. rewrite app_nil_r.
    change (list_sum [word_count x]) with (word_count x + 0).
    rewrite word_count_token_count. unfold token_count. lia.
  - cbn [flat_map map].
    change (u " " ++ y) with (32%N :: y).
    change ((32%N :: y) ++ flat_map (fun y0 => u " " ++ y0) rest)
      with (32%N :: (y ++ flat_map (fun y0 => u " " ++ y0) rest)).
    rewrite word_starts_app_space, IH.
    change (list_sum (word_count x :: word_count y :: map word_count rest))
      with (word_count x + list_sum (word_count y :: map word_count rest)).
    rewrite word_count_token_count. unfold token_count. reflexivity.
Qed.

Lemma word_starts_bound (after_space : bool) (text : str) :
  2 * word_starts after_space text
  <= length text + (if after_space then 1 else 0).
Proof.
  revert after_space. induction text as [|c text IH]; intro after_space.
  - destruct after_space; cbn; lia.
  - cbn [word_starts length]. specialize (IH (is_space c)).
    destruct after_space, (is_space c); cbn [andb negb] in *; lia.
Qed.

Lemma word_starts_zero (text : str) :
  word_starts true text = 0 <-> Forall (fun c => is_space c = true) text.
Proof.
  induction text as [|c text IH]; cbn [word_starts].
  - split; [constructor|reflexivity].
  - destruct (is_space c) eqn:E; cbn [andb negb].
    + rewrite Nat.add_0_l, IH. split.
      * intro H. now constructor.
      * intro H. now inversion H.
    + split; [discriminate|]. intro H. inversion H; congruence.
Qed.

(** X6. The card reports 0 words exactly for a transcript that is empty or
    made of spaces only, and never more than half the number of characters,
    rounded up. *)
Theorem word_count_bounds (transcript_text : str) :
  (word_count transcript_text = 0
   <-> Forall (fun c => is_space c = true) transcript_text)
  /\ 2 * word_count transcript_text <= length transcript_text + 1.
Proof.
  rewrite word_count_token_count. unfold token_count. split.
  - apply word_starts_zero.
  - apply (word_starts_bound true).
Qed.

(** ** Failures of the retrieval *)

Lemma surfaced_class (e : exn) :
  user_message (exn_cls (surfaced e)) = None
  /\ (user_message (exn_cls e) = None -> surfaced e = e).
Proof.
  unfold surfaced. destruct e as [[] msg]; cbn; split; reflexivity || discriminate.
Qed.

(** X7. An exception that leaves [get_transcript] is never one of the three
    failures of the service that it catches.  It is the failure the retrieval
    ran into, under its message when it is one of the three and as it came
    when it is of another kind; or, when listing, selecting and fetching all
    went well, the [TypeError] of the subscript.  A text is returned only
    when the fetched track has no segment, and it is the empty text. *)
Theorem get_transcript_outcome (api : service) (video_id : str) :
  match get_transcript api video_id with
  | (_, Raise e) =>
      user_message (exn_cls e) = None
      /\ ((exists e0,
             retrieval_failure api video_id = Some e0
             /\ e = surfaced e0
             /\ (user_message (exn_cls e0) = None -> e = e0))
          \/ (retrieval_failure api video_id = None /\ e = not_subscriptable))
  | (_, Return transcript_text) =>
      retrieval_failure api video_id = None /\ transcript_text = []
  end.
Proof.
  destruct (get_transcript_by_failure api video_id) as (calls & _ & G).
  rewrite G. clear G.
  destruct (retrieval_failure api video_id) as [e0|] eqn:F.
  - split; [apply surfaced_class|]. left.
    exists e0. split; [reflexivity|]. split; [reflexivity|].
    apply surfaced_class.
  - unfold retrieval_failure in F.
    destruct (api video_id) as [tl|]; [|discriminate F].
    destruct (snd (select_transcript video_id tl)) as [t|]; [|discriminate F].
    destruct (fetch_result t) as [[|x d]|]; [| |discriminate F].
    + split; reflexivity.
    + split; [reflexivity|]. right. split; reflexivity.
Qed.

Example get_transcript_unreachable :
  get_transcript unreachable (u "ABCDEFGHIJK")
  = ([call_list (u "ABCDEFGHIJK")], Raise (Exn OtherError (u "connection lost"))).
Proof. reflexivity. Qed.

Example get_transcript_empty_track :
  get_transcript empty_track (u "ABCDEFGHIJK")
  = ([call_list (u "ABCDEFGHIJK"); call_fetch (u "en")], Return []).
Proof. reflexivity. Qed.

(** X8. Once [st.video] has taken the URL, whatever exception
    [get_transcript] raises, [main] shows its text as an error and the list
    of possible causes, and returns: no card, no download button and no
    footer are shown. *)
Theorem main_on_any_failure (video : player) (api : service)
    (youtube_url video_id : str) (calls : list api_call) (e : exn) :
  extract_video_id youtube_url = Some video_id ->
  video youtube_url = Return tt ->
  get_transcript api video_id = (calls, Raise e) ->
  main video api youtube_url true
  = (calls,
     shown_before_retrieval youtube_url video_id
     ++ [ st_error ([0x274C%N] ++ u " Errore: " ++ exn_str e);
          st_info possible_causes ])
  /\ existsb shows_card (snd (main video api youtube_url true)) = false.
Proof.
  intros Hx Hv Hg.
  assert (M : main video api youtube_url true
              = (calls, shown_on_failure youtube_url video_id e)).
  { rewrite (main_after_extraction video api youtube_url video_id Hx Hv), Hg.
    reflexivity. }
  split; [exact M|]. rewrite M. reflexivity.
Qed.

Lemma main_on_any_failure_witness :
  extract_video_id (u "https://youtu.be/ABCDEFGHIJK") = Some (u "ABCDEFGHIJK")
  /\ plays_http (u "https://youtu.be/ABCDEFGHIJK") = Return tt
  /\ existsb shows_card
       (snd (main plays_http unreachable (u "https://youtu.be/ABCDEFGHIJK") true))
     = false.
Proof.
  assert (Hx : extract_video_id (u "https://youtu.be/ABCDEFGHIJK")
               = Some (u "ABCDEFGHIJK")) by (vm_compute; reflexivity).
  assert (Hv : plays_http (u "https://youtu.be/ABCDEFGHIJK") = Return tt)
    by reflexivity.
  split; [exact Hx|]. split; [exact Hv|].
  exact (proj2 (main_on_any_failure plays_http unreachable
                  (u "https://youtu.be/ABCDEFGHIJK")
                  (u "ABCDEFGHIJK") [call_list (u "ABCDEFGHIJK")]
                  (Exn OtherError (u "connection lost")) Hx Hv eq_refl)).
Defined.

(** ** What a run asks of the service *)

(** X9. A run of [main] asks nothing of the service unless the button is
    pressed, the URL holds an identifier and [st.video] takes the URL; then
    it asks for the tracks of that identifier, once, and fetches one track at
    most.  When [st.video] raises, the run ends in its exception, before any
    request. *)
Theorem main_requests (video : player) (api : service) (youtube_url : str)
    (generate_button : bool) :
  match extract_video_id youtube_url with
  | Some video_id =>
      if generate_button then
        match video youtube_url with
        | Return _ =>
            single_attempt video_id
              (fst (main video api youtube_url generate_button))
        | Raise e =>
            main video api youtube_url generate_button
            = ([],
               [ st_success ([0x2705%N] ++ u " Video ID estratto: `"
                             ++ video_id ++ u "`");
                 st_expander ([0x1F3A5%N] ++ u " Anteprima Video");
                 uncaught e ])
        end
      else fst (main video api youtube_url generate_button) = []
  | None => fst (main video api youtube_url generate_button) = []
  end.
Proof.
  destruct (extract_video_id youtube_url) as [video_id|] eqn:Hx.
  - destruct generate_button; [|reflexivity].
    destruct (video youtube_url) as [[]|e] eqn:Hv.
    + rewrite (main_after_extraction video api youtube_url video_id Hx Hv).
      destruct (get_transcript_by_failure api video_id) as (calls & Hc & Hg).
      rewrite Hg.
      destruct (retrieval_failure api video_id); [exact Hc|].
      destruct (api video_id) as [tl|]; [|exact Hc].
      destruct (snd (select_transcript video_id tl)) as [t|]; [|exact Hc].
      destruct (fetch_result t) as [[|x d]|]; exact Hc.
    + exact (main_video_fails video api youtube_url video_id e Hx Hv).
  - destruct generate_button; [|reflexivity].
    unfold main, on_generate. destruct youtube_url; [reflexivity|].
    rewrite Hx. reflexivity.
Qed.

Example main_video_rejects :
  extract_video_id (u "youtu.be/ABCDEFGHIJK") = Some (u "ABCDEFGHIJK")
  /\ main plays_http english_only (u "youtu.be/ABCDEFGHIJK") true
     = ([],
        [ st_success ([0x2705%N] ++ u " Video ID estratto: `ABCDEFGHIJK`");
          st_expander ([0x1F3A5%N] ++ u " Anteprima Video");
          uncaught (Exn OtherError (u "Error opening 'youtu.be/ABCDEFGHIJK'")) ]).
Proof. split; vm_compute; reflexivity. Qed.

(** ** The download *)

Lemma valid_id_file_name (video_id : str) :
  valid_id video_id ->
  length (u "lezione_" ++ video_id ++ u ".md") = 22
  /\ forallb file_name_char (u "lezione_" ++ video_id ++ u ".md") = true.
Proof.
  intros [L F]. split.
  - rewrite !length_app, L. reflexivity.
  - rewrite !forallb_app. change (forallb file_name_char (u "lezione_")) with true.
    change (forallb file_name_char (u ".md")) with true.
    rewrite andb_true_r. cbn [andb].
    apply forallb_forall. intros c Hc. unfold file_name_char.
    rewrite Forall_forall in F. now rewrite (F c Hc).
Qed.

(** X10. When [st.video] has taken the URL and [get_transcript] returns a
    text, the last things [main] shows before the footer are the card and the
    button that downloads it: the file holds the very card that is shown, its
    type is [text/markdown], and its name [lezione_<identifier>.md] has 22
    characters, all among letters, digits, [_], [-] and [.]: no path
    separator. *)
Theorem main_download (video : player) (api : service)
    (youtube_url video_id : str) (calls : list api_call) (transcript_text : str) :
  extract_video_id youtube_url = Some video_id ->
  video youtube_url = Return tt ->
  get_transcript api video_id = (calls, Return transcript_text) ->
  exists shown label file_name,
    main video api youtube_url true
    = (calls,
       shown
       ++ [ st_markdown (generate_lesson_from_text transcript_text);
            st_download_button label (generate_lesson_from_text transcript_text)
                               file_name (u "text/markdown") ]
       ++ footer)
    /\ file_name = u "lezione_" ++ video_id ++ u ".md"
    /\ length file_name = 22
    /\ forallb file_name_char file_name = true.
Proof.
  intros Hx Hv Hg.
  destruct (extract_video_id_sound youtube_url video_id Hx) as (p & sh & s & _ & Hid & _).
  destruct (valid_id_file_name video_id Hid) as [L F].
  eexists (shown_before_retrieval youtube_url video_id ++ [_; _; _; _; _]), _, _.
  split; [|split; [reflexivity|split; [exact L|exact F]]].
  rewrite (main_after_extraction video api youtube_url video_id Hx Hv), Hg.
  rewrite <- !app_assoc. reflexivity.
Qed.

Lemma main_download_witness :
  extract_video_id (u "https://youtu.be/ABCDEFGHIJK") = Some (u "ABCDEFGHIJK")
  /\ plays_http (u "https://youtu.be/ABCDEFGHIJK") = Return tt
  /\ get_transcript empty_track (u "ABCDEFGHIJK")
     = ([call_list (u "ABCDEFGHIJK"); call_fetch (u "en")], Return [])
  /\ exists shown label file_name,
       main plays_http empty_track (u "https://youtu.be/ABCDEFGHIJK") true
       = ([call_list (u "ABCDEFGHIJK"); call_fetch (u "en")],
          shown
          ++ [ st_markdown (generate_lesson_from_text []);
               st_download_button label (generate_lesson_from_text [])
                                  file_name (u "text/markdown") ]
          ++ footer)
       /\ file_name = u "lezione_" ++ u "ABCDEFGHIJK" ++ u ".md".
Proof.
  assert (Hx : extract_video_id (u "https://youtu.be/ABCDEFGHIJK")
               = Some (u "ABCDEFGHIJK")) by (vm_compute; reflexivity).
  assert (Hv : plays_http (u "https://youtu.be/ABCDEFGHIJK") = Return tt)
    by reflexivity.
  assert (Hg : get_transcript empty_track (u "ABCDEFGHIJK")
               = ([call_list (u "ABCDEFGHIJK"); call_fetch (u "en")],
                  Return [])) by reflexivity.
  split; [exact Hx|]. split; [exact Hv|]. split; [exact Hg|].
  destruct (main_download plays_http empty_track (u "https://youtu.be/ABCDEFGHIJK")
              (u "ABCDEFGHIJK") _ _ Hx Hv Hg)
    as (shown & label & file_name & M & N & _).
  exists shown, label, file_name. split; assumption.
Defined.

(** ** The optional beginning of the patterns *)

Lemma strip_prefix_cons_ne (x y : char) (l s : str) :
  x <> y -> strip_prefix (x :: l) (y :: s) = None.
Proof.
  intro H. cbn [strip_prefix]. destruct (N.eqb_spec x y); [contradiction|reflexivity].
Qed.

(** A core matches only text that starts with [y]. *)
Lemma core_needs_y (c : regex) (g : option str) (s : str) :
  In c cores -> (forall s', s <> 121%N :: s') -> matches c g s = [].
Proof.
  intros Hc Hs.
  assert (L : forall l, strip_prefix (121%N :: l) s = None).
  { intro l. destruct s as [|x s]; [reflexivity|].
    apply strip_prefix_cons_ne. intros <-. now apply (Hs s). }
  destruct Hc as [<-|[<-|[<-|[<-|[]]]]];
    unfold watch_core, short_core, embed_core, v_core;
    rewrite matches_cat; cbn [matches];
    match goal with |- context [strip_prefix (u ?l) s] =>
      change (u l) with (121%N :: tl (u l)) end;
    rewrite L; reflexivity.
Qed.

Lemma strip_prefix_split (a b s : str) :
  strip_prefix (a ++ b) s
  = match strip_prefix a s with
    | Some r => strip_prefix b r
    | None => None
    end.
Proof.
  revert s. induction a as [|x a IH]; intro s; [reflexivity|].
  destruct s as [|y s]; [reflexivity|]. cbn [app strip_prefix].
  destruct (N.eqb x y); [apply IH|reflexivity].
Qed.

(** [https?:\/\/] takes [https://] or [http://], and never both. *)
Lemma matches_scheme_body (g : option str) (s : str) :
  matches (Cat (Lit (u "http")) (Cat (Opt (Lit (u "s"))) (Lit (u "://")))) g s
  = match strip_prefix (u "https://") s with
    | Some r => [(g, r)]
    | None =>
        match strip_prefix (u "http://") s with
        | Some r => [(g, r)]
        | None => []
        end
    end.
Proof.
  change (u "https://") with (u "http" ++ u "s://").
  change (u "http://") with (u "http" ++ u "://").
  rewrite !strip_prefix_split, matches_cat. cbn [matches].
  destruct (strip_prefix (u "http") s) as [r1|]; [|reflexivity].
  cbn [flat_map fst snd]. rewrite app_nil_r.
  destruct r1 as [|x r1]; [reflexivity|].
  change (u "s://") with (115%N :: u "://").
  change (u "s") with [115%N].
  cbn [strip_prefix app flat_map fst snd].
  destruct (N.eqb_spec 115 x) as [<-|Hx].
  - cbn [flat_map app fst snd]. rewrite app_nil_r.
    change (strip_prefix (u "://") (115%N :: r1)) with (@None str).
    destruct (strip_prefix (u "://") r1); reflexivity.
  - cbn [flat_map app fst snd]. rewrite app_nil_r. reflexivity.
Qed.

Section OptionalBeginning.

Variable c : regex.
Hypothesis needs_y :
  forall g s, (forall s', s <> 121%N :: s') -> matches c g s = [].

Lemma no_match_at (g : option str) (x : char) (l r : str) :
  x <> 121%N -> matches c g ((x :: l) ++ r) = [].
Proof. intro H. apply needs_y. intros s' [= E _]. now apply H. Qed.

Lemma matches_www_core (g : option str) (r : str) :
  matches (Cat www c) g r = matches c g (strip_opt (u "www.") r).
Proof.
  unfold www, strip_opt. rewrite matches_cat, matches_opt. cbn [matches].
  destruct (strip_prefix (u "www.") r) as [r'|] eqn:E.
  - cbn [app flat_map fst snd]. rewrite app_nil_r.
    apply strip_prefix_inv in E. subst r.
    change (u "www.") with (119%N :: tl (u "www.")).
    rewrite no_match_at by discriminate. apply app_nil_r.
  - cbn [app flat_map fst snd]. apply app_nil_r.
Qed.

(** The pattern matches where its core matches once the optional
    beginning is taken off. *)
Lemma matches_with_prefix (g : option str) (s : str) :
  matches (with_prefix c) g s = matches c g (strip_beginning s).
Proof.
  unfold with_prefix, scheme, strip_beginning, strip_scheme.
  rewrite matches_cat, matches_opt, matches_scheme_body, flat_map_app.
  cbn [flat_map fst snd]. rewrite app_nil_r, !matches_www_core.
  destruct (strip_prefix (u "https://") s) as [r|] eqn:E1.
  - cbn [flat_map fst snd]. rewrite app_nil_r, matches_www_core.
    apply strip_prefix_inv in E1. subst s.
    change (strip_opt (u "www.") (u "https://" ++ r))
      with ((104%N :: tl (u "https://")) ++ r).
    rewrite no_match_at by discriminate. apply app_nil_r.
  - unfold strip_opt at 3.
    destruct (strip_prefix (u "http://") s) as [r|] eqn:E2.
    + cbn [flat_map fst snd]. rewrite app_nil_r, matches_www_core.
      apply strip_prefix_inv in E2. subst s.
      change (strip_opt (u "www.") (u "http://" ++ r))
        with ((104%N :: tl (u "http://")) ++ r).
      rewrite no_match_at by discriminate. apply app_nil_r.
    + reflexivity.
Qed.

Lemma search_skip (pre r : str) :
  Forall (fun x => x <> 121%N) pre -> search c (pre ++ r) = search c r.
Proof.
  induction 1 as [|x pre Hx _ IH]; [reflexivity|].
  cbn [app]. rewrite search_step; [exact IH|].
  now apply (no_match_at None x pre r).
Qed.

(** What is taken off holds no [y]. *)
Lemma strip_beginning_split (s : str) :
  exists pre, s = pre ++ strip_beginning s /\ Forall (fun x => x <> 121%N) pre.
Proof.
  assert (W : forall r, exists b, r = b ++ strip_opt (u "www.") r
                               /\ Forall (fun x => x <> 121%N) b).
  { intro r. unfold strip_opt.
    destruct (strip_prefix (u "www.") r) as [r'|] eqn:E.
    - exists (u "www."). split; [now apply strip_prefix_inv|].
      repeat constructor; discriminate.
    - exists []. split; [reflexivity|constructor]. }
  assert (S : exists a, s = a ++ strip_scheme s
                        /\ Forall (fun x => x <> 121%N) a).
  { unfold strip_scheme, strip_opt.
    destruct (strip_prefix (u "https://") s) as [r|] eqn:E1.
    - exists (u "https://"). split; [now apply strip_prefix_inv|].
      repeat constructor; discriminate.
    - destruct (strip_prefix (u "http://") s) as [r|] eqn:E2.
      + exists (u "http://"). split; [now apply strip_prefix_inv|].
        repeat constructor; discriminate.
      + exists []. split; [reflexivity|constructor]. }
  destruct S as (a & Ea & Fa). destruct (W (strip_scheme s)) as (b & Eb & Fb).
  exists (a ++ b). split.
  - unfold strip_beginning. rewrite <- app_assoc, <- Eb. exact Ea.
  - apply Forall_app. now split.
Qed.

Lemma search_with_prefix (url : str) :
  search (with_prefix c) url = search c url.
Proof.
  induction url as [|x rest IH].
  - cbn [search]. rewrite matches_with_prefix. reflexivity.
  - cbn [search]. rewrite matches_with_prefix, IH.
    destruct (strip_beginning_split (x :: rest)) as (pre & E & F).
    destruct pre as [|y pre].
    + cbn [app] in E. rewrite <- E. reflexivity.
    + assert (N0 : matches c None (x :: rest) = []).
      { rewrite E. apply no_match_at. now inversion F. }
      rewrite N0.
      destruct (matches c None (strip_beginning (x :: rest))) as [|m l] eqn:M.
      * reflexivity.
      * assert (Hs : search c (x :: rest) = Some m).
        { rewrite E, search_skip by exact F. now apply search_hit with (l := l). }
        cbn [search] in Hs. rewrite N0 in Hs. now rewrite Hs.
Qed.

End OptionalBeginning.

Lemma search_pattern_core (c : regex) (url : str) :
  In c cores -> search (with_prefix c) url = search c url.
Proof.
  intro Hc. apply search_with_prefix.
  intros g s Hs. now apply core_needs_y.
Qed.

Lemma search_core_skip (c : regex) (pre url : str) :
  In c cores -> Forall (fun x => x <> 121%N) pre ->
  search c (pre ++ url) = search c url.
Proof.
  intros Hc F. apply search_skip; [|exact F].
  intros g s Hs. now apply core_needs_y.
Qed.

(** X11. The optional scheme and [www.] of the patterns change nothing:
    [extract_video_id] returns what the four patterns without them return,
    and text without a [y] in front of a string (a scheme, a host prefix,
    anything else) is of no effect. *)
Theorem optional_beginning_immaterial (url : str) :
  extract_video_id url = first_found cores url
  /\ (forall pre, Forall (fun x => x <> 121%N) pre ->
                  extract_video_id (pre ++ url) = extract_video_id url).
Proof.
  assert (E : forall s, extract_video_id s = first_found cores s).
  { intro s. unfold extract_video_id, patterns, cores. cbn [first_found].
    rewrite !search_pattern_core by (cbn; tauto). reflexivity. }
  split; [apply E|].
  intros pre F. rewrite !E. unfold cores. cbn [first_found].
  rewrite !search_core_skip by (assumption || (cbn; tauto)). reflexivity.
Qed.

(** ** Query parameters before [v=] *)

Lemma star_loop_dot_cons (fuel : nat) (g : option str) (x : char) (s : str) :
  x <> newline ->
  star_loop (matches Dot) (S fuel) g (x :: s)
  = star_loop (matches Dot) fuel g s ++ [(g, x :: s)].
Proof.
  intro Hx. cbn [star_loop matches].
  destruct (N.eqb_spec x newline) as [E|_]; [contradiction|].
  cbn [flat_map fst snd]. rewrite app_nil_r.
  destruct (_ <? _) eqn:L; [reflexivity|].
  apply Nat.ltb_ge in L. simpl in L. lia.
Qed.

(** [.*&] stops at the last [&]: when none follows in [w], what is left
    after the first choice of the backtracking is [w]. *)
Lemma star_dot_last_amp (fuel : nat) (g : option str) (q w : str) :
  ~ In newline q -> ~ In 38%N w -> length q < fuel ->
  exists l,
    flat_map (fun m : mstate => matches (Lit (u "&")) (fst m) (snd m))
             (star_loop (matches Dot) fuel g (q ++ 38%N :: w))
    = (g, w) :: l.
Proof.
  revert fuel. induction q as [|x q IH]; intros fuel Hq Hw Hf.
  - destruct fuel as [|fuel]; [simpl in Hf; lia|].
    cbn [app]. rewrite star_loop_dot_cons by discriminate.
    rewrite flat_map_app.
    rewrite (nil_by_members (flat_map _ (star_loop (matches Dot) fuel g w))).
    + exists []. cbn [app flat_map fst snd].
      change (38%N :: w) with (u "&" ++ w). now rewrite matches_lit_app.
    + intros m H. apply in_flat_map in H as (m1 & H1 & H2).
      apply in_star_dot in H1 as (_ & q' & E & _).
      apply in_matches_lit in H2 as [_ E2].
      apply Hw. rewrite E, E2. apply in_or_app. right. now left.
  - destruct fuel as [|fuel]; [simpl in Hf; lia|].
    cbn [app]. rewrite star_loop_dot_cons, flat_map_app.
    + destruct (IH fuel) as (l & ->).
      * intro H. apply Hq. now right.
      * exact Hw.
      * simpl in Hf. lia.
      * eexists. reflexivity.
    + intros ->. apply Hq. now left.
Qed.

(** With query parameters before [&v=], the identifier after the last [&v=]
    is the first match of the core. *)
Lemma watch_core_query (g : option str) (q t extra : str) :
  ~ In newline q -> valid_id t -> Forall (fun c => is_id_char c = true) extra ->
  exists l,
    matches watch_core g (u "youtube.com/watch?" ++ q ++ u "&v=" ++ t ++ extra)
    = (Some t, extra) :: l.
Proof.
  intros Hq Ht Hx. unfold watch_core.
  rewrite matches_cat, matches_lit_app. cbn [flat_map fst snd].
  rewrite app_nil_r, matches_cat, matches_opt, matches_cat, matches_star.
  change (u "&v=" ++ t ++ extra) with (38%N :: (u "v=" ++ t ++ extra)).
  destruct (star_dot_last_amp (length (q ++ 38%N :: u "v=" ++ t ++ extra)) g q
              (u "v=" ++ t ++ extra)) as (l & ->).
  - exact Hq.
  - cbn [u map list_ascii_of_string app In]. intros [H|[H|H]]; try discriminate H.
    apply in_app_or in H. destruct Ht as [_ Ht].
    rewrite Forall_forall in Ht, Hx.
    assert (is_id_char 38%N = true) as C
      by (destruct H as [H|H]; [apply (Ht _ H) | apply (Hx _ H)]).
    discriminate C.
  - rewrite length_app. cbn [length]. lia.
  - cbn [app flat_map fst snd]. rewrite simple_core_app by assumption.
    eexists. reflexivity.
Qed.

(** X12. In a watch URL the parameters before [&v=] are passed over,
    whatever they are on one line, other [v=] parameters included: the
    identifier returned is the one after the last [&v=]. *)
Theorem watch_query_parameters (pre q t extra : str) :
  In pre url_prefixes -> ~ In newline q -> valid_id t ->
  Forall (fun c => is_id_char c = true) extra ->
  extract_video_id (pre ++ u "youtube.com/watch?" ++ q ++ u "&v=" ++ t ++ extra)
  = Some t.
Proof.
  intros Hpre Hq Ht Hx.
  destruct (watch_core_query None q t extra Hq Ht Hx) as (l & M).
  change (u "youtube.com/watch?" ++ q ++ u "&v=" ++ t ++ extra)
    with (121%N :: (tl (u "youtube.com/watch?") ++ q ++ u "&v=" ++ t ++ extra))
    in *.
  destruct (with_prefix_head pre watch_core _ _ _ Hpre M) as (l' & H).
  unfold extract_video_id, patterns. cbn [first_found].
  now rewrite (search_hit _ _ _ _ H).
Qed.

Lemma watch_query_parameters_witness :
  ~ In newline (u "v=AAAAAAAAAAA&list=PL1") /\ valid_id (u "BBBBBBBBBBB")
  /\ extract_video_id
       (u "https://www.youtube.com/watch?v=AAAAAAAAAAA&list=PL1&v=BBBBBBBBBBB")
     = Some (u "BBBBBBBBBBB").
Proof.
  assert (Hq : ~ In newline (u "v=AAAAAAAAAAA&list=PL1")).
  { cbn. intuition discriminate. }
  assert (Ht : valid_id (u "BBBBBBBBBBB")).
  { split; [reflexivity|]. repeat constructor. }
  split; [exact Hq|]. split; [exact Ht|].
  apply (watch_query_parameters (u "https://www.") (u "v=AAAAAAAAAAA&list=PL1")
           (u "BBBBBBBBBBB") []).
  - cbn. tauto.
  - exact Hq.
  - exact Ht.
  - constructor.
Defined.

(** ** Cutting and escaping *)

(** X13. Escaping goes through a text piece by piece: the escape of a
    concatenation is the concatenation of the escapes, so that cutting the
    transcript before escaping it never cuts an escaped character in two, and
    the escaped preview of a long transcript starts like the escaped
    transcript. *)
Theorem escape_markdown_pieces (text : str) (n : nat) :
  (forall pieces, escape_markdown (concat pieces)
                  = concat (map escape_markdown pieces))
  /\ escape_markdown text
     = escape_markdown (firstn n text) ++ escape_markdown (skipn n text)
  /\ (500 < length text ->
      escape_markdown (preview text)
      = firstn (length (escape_markdown (firstn 500 text))) (escape_markdown text)
        ++ escape_markdown (u "...")).
Proof.
  assert (C : escape_markdown text
              = escape_markdown (firstn n text) ++ escape_markdown (skipn n text)).
  { now rewrite <- escape_markdown_app, firstn_skipn. }
  split; [|split; [exact C|]].
  - induction pieces as [|p pieces IH]; [reflexivity|].
    cbn [concat map]. now rewrite escape_markdown_app, IH.
  - intro H. unfold preview. apply Nat.ltb_lt in H. rewrite H.
    rewrite escape_markdown_app. f_equal.
    rewrite <- (firstn_skipn 500 text) at 3.
    rewrite escape_markdown_app, firstn_app, Nat.sub_diag, firstn_all.
    cbn [firstn]. now rewrite app_nil_r.
Qed.

(** ** Short strings *)

Lemma shape_length (sh : str) : shape sh -> 9 <= length sh.
Proof.
  intros [mid _| | |]; cbn; lia.
Qed.

(** X14. No string of fewer than 20 characters holds an identifier: the
    shortest shape has 9 characters and the identifier 11. *)
Theorem extract_video_id_short (url : str) :
  length url < 20 -> extract_video_id url = None.
Proof.
  intro H. destruct (extract_video_id url) as [t|] eqn:E; [|reflexivity].
  destruct (extract_video_id_sound url t E) as (p & sh & s & Hsh & [Ht _] & ->).
  apply shape_length in Hsh. rewrite !length_app in H. lia.
Qed.

Lemma extract_video_id_short_witness :
  length (u "youtu.be/ABCDEFGHIJ") < 20
  /\ extract_video_id (u "youtu.be/ABCDEFGHIJ") = None.
Proof.
  assert (H : length (u "youtu.be/ABCDEFGHIJ") < 20) by (cbn; lia).
  split; [exact H|]. exact (extract_video_id_short _ H).
Defined.
